(** * ServiceLocator.hpp: a shallow embedding of the resolution engine

    The development follows [src/ServiceLocator.hpp].  The immutable pointer
    structure of the program (a locator's [_parent], a context's [_parent],
    [_root] and [_sl]) is carried by inductive handles; every mutable field
    ([_typed_locators], [_bindings], [_eagerBindings], [_fnGet], [_fnCreate],
    [_singleton], [_concreteType], [_fnAfterResolveList]) lives in a [heap]
    keyed by the address of the object that owns it.  Code supplied by the
    client (constructors, factory lambdas, after-resolve callbacks) is a term
    of the free monad [Prog] over the public operations of [Context]; the
    engine runs it through an interpreter indexed by a recursion budget. *)

From Stdlib Require Import String Ascii.
From stdpp Require Import base option list gmap strings.

Local Open Scope string_scope.
Local Open Scope list_scope.

(** ** Identities *)

(** Addresses of heap objects (locators, contexts, bindings, callback lists)
    and identities of the instances handed out by the engine. *)
Definition addr := nat.
Definition obj := nat.

(** [std::type_index]: the model identifies a type with its demangled name,
    the [status = 0] result of [__cxa_demangle] in [getTypeName]. *)
Definition type_index := string.
Definition typeid_void : type_index := "void".

(** [sptr<IFace>]: [None] is [nullptr]. *)
Definition sptr := option obj.

Inductive exn : Type :=
| DuplicateBindingException (message : string)
| RecursiveResolveException (message : string)
| BindingIssueException (message : string)
| UnableToResolveException (message : string)
| bad_function_call
| client_exception (message : string).

(** ** [std::map<std::string, V>]: an association list kept in key order *)

Module smap.
Definition t (V : Type) := list (string * V).

Fixpoint find {V} (k : string) (m : t V) : option V :=
  match m with
  | [] => None
  | (k', v) :: m' => if String.eqb k k' then Some v else find k m'
  end.

(** [std::map::insert]: keeps an existing entry, otherwise places the new
    one at its position in the order of the keys. *)
Fixpoint insert {V} (k : string) (v : V) (m : t V) : t V :=
  match m with
  | [] => [(k, v)]
  | (k', v') :: m' =>
      match String.compare k k' with
      | Lt => (k, v) :: (k', v') :: m'
      | Eq => (k', v') :: m'
      | Gt => (k', v') :: insert k v m'
      end
  end.

Definition keys {V} (m : t V) : list string := map fst m.
Definition values {V} (m : t V) : list V := map snd m.

(** Strictly ascending keys: the iteration order of [std::map]. *)
Fixpoint ascending (ks : list string) : Prop :=
  match ks with
  | [] => True
  | k :: ks' =>
      match ks' with
      | [] => True
      | k' :: _ => String.compare k k' = Lt
      end /\ ascending ks'
  end.
End smap.

(** ** Handles *)

(** A [ServiceLocator] object: its address, the address of its persistent
    [_context], and the [_parent] it was constructed with. *)
Inductive ServiceLocator : Type :=
| RootLocator (sl_addr : addr) (sl_context : addr)
| ChildLocator (sl_addr : addr) (sl_context : addr) (parent : ServiceLocator).

Definition sl_addr (sl : ServiceLocator) : addr :=
  match sl with RootLocator a _ | ChildLocator a _ _ => a end.

Definition sl_context (sl : ServiceLocator) : addr :=
  match sl with RootLocator _ c | ChildLocator _ c _ => c end.


(** The locator chain, closest scope first. *)
Fixpoint sl_chain (sl : ServiceLocator) : list addr :=
  match sl with
  | RootLocator a _ => [a]
  | ChildLocator a _ p => a :: sl_chain p
  end.

(** A [Context] object; [ctx_addr] is its address ([this]). *)
#[warnings="-register-all"]
Inductive Context : Type :=
  mkContext {
      ctx_addr : addr;
      _root : addr;
      _parent : option Context;
      _sl : ServiceLocator;
      _interfaceType : type_index;
      _name : string
    }.

(** The contexts compared by [checkRecursiveResolve]: [c] and its ancestors. *)
Fixpoint ctx_chain (c : Context) : list Context :=
  c :: match c with
       | mkContext _ _ (Some p) _ _ _ => ctx_chain p
       | mkContext _ _ None _ _ _ => []
       end.

(** ** Client code *)

(** Code run by the engine on behalf of the client: the body of a
    constructor, of a factory lambda or of an after-resolve callback.  Each
    constructor is one call on a [Context] the code holds, followed by the
    rest of the code.  Client code that registers bindings, enters locators
    or catches exceptions while a resolution is in progress is not
    represented. *)
Inductive Prog : Type :=
| Return (v : sptr)
| Throw (e : exn)
| New (k : obj -> Prog)
| Resolve (c : Context) (iface : type_index) (named : string) (k : sptr -> Prog)
| TryResolve (c : Context) (iface : type_index) (named : string) (k : sptr -> Prog)
| CanResolve (c : Context) (iface : type_index) (named : string) (k : bool -> Prog)
| ResolveAll (c : Context) (iface : type_index) (k : list sptr -> Prog)
| AfterResolve (c : Context) (fn : Context -> Prog) (k : Prog)
| SetConcreteType (c : Context) (concrete : type_index) (k : Prog)
| Provider (c : Context) (iface : type_index) (named : string) (k : sptr -> Prog)
| TryProvider (c : Context) (iface : type_index) (named : string) (k : sptr -> Prog).

(** Sequencing of client code. *)
Fixpoint pbind (p : Prog) (f : sptr -> Prog) : Prog :=
  match p with
  | Return v => f v
  | Throw e => Throw e
  | New k => New (fun o => pbind (k o) f)
  | Resolve c i n k => Resolve c i n (fun v => pbind (k v) f)
  | TryResolve c i n k => TryResolve c i n (fun v => pbind (k v) f)
  | CanResolve c i n k => CanResolve c i n (fun b => pbind (k b) f)
  | ResolveAll c i k => ResolveAll c i (fun vs => pbind (k vs) f)
  | AfterResolve c fn k => AfterResolve c fn (pbind k f)
  | SetConcreteType c t k => SetConcreteType c t (pbind k f)
  | Provider c i n k => Provider c i n (fun v => pbind (k v) f)
  | TryProvider c i n k => TryProvider c i n (fun v => pbind (k v) f)
  end.

(** ** The heap *)

(** [shared_ptr_binding::_fnGet].  Every assignment to [_fnCreate] in the
    source assigns the same closure to [_fnGet], and [asTransient] copies it
    again, so a [_fnGet] that is a copy of [_fnCreate] is kept as a reference
    to that field. *)
Inductive fnGet_t : Type :=
| fn_empty                    (* default-constructed [std::function] *)
| fn_create                   (* [_fnGet = _fnCreate] *)
| fn_instance (instance : sptr)  (* [toInstance] *)
| fn_singleton                (* the outer lambda of [asSingleton] *)
| fn_cached.                  (* the inner lambda: [return _singleton] *)

Record shared_ptr_binding : Type :=
  mkBinding {
      iface : type_index;             (* the [IFace] of the enclosing class *)
      _fnGet : fnGet_t;
      _fnCreate : option (Context -> Prog);
      _eagerBindings_of : addr;       (* locator owning [*_eagerBindings] *)
      _singleton : sptr               (* [as_clause::_singleton] *)
    }.

(** [TypedServiceLocator<IFace>::_bindings], values are binding addresses. *)
Definition TypedServiceLocator := smap.t addr.

Record Locator : Type :=
  mkLocator {
      _typed_locators : gmap type_index TypedServiceLocator;
      _eagerBindings : list addr
    }.

Record heap : Type :=
  mkHeap {
      next : addr;                                   (* allocator *)
      locators : gmap addr Locator;
      bindings : gmap addr shared_ptr_binding;
      concreteType : gmap addr type_index;           (* [_concreteType] *)
      fnAfterResolveList : gmap addr (addr * list (Context -> Prog));
      created : list addr   (* ghost: one entry per call of a [_fnCreate] *)
    }.

Definition empty_heap : heap := mkHeap 0 ∅ ∅ ∅ ∅ [].

(** ** Outcomes and the state monad *)

Inductive abort : Type :=
| OutOfFuel       (* recursion budget of the model exhausted *)
| Undefined.      (* undefined behaviour: a dangling or deleted object is used *)

Inductive outcome (A : Type) : Type :=
| Ret (a : A)
| Exc (e : exn)
| Abort (r : abort).
Arguments Ret {A} a.
Arguments Exc {A} e.
Arguments Abort {A} r.

Definition M (A : Type) : Type := heap -> outcome A * heap.

Definition throw {A} (e : exn) : M A := fun h => (Exc e, h).
Definition stop {A} (r : abort) : M A := fun h => (Abort r, h).

#[global] Instance M_ret : MRet M := fun A a h => (Ret a, h).

#[global] Instance M_bind : MBind M := fun A B f m h =>
  match m h with
  | (Ret a, h') => f a h'
  | (Exc e, h') => (Exc e, h')
  | (Abort r, h') => (Abort r, h')
  end.

Definition gets {A} (f : heap -> A) : M A := fun h => (Ret (f h), h).
Definition modify (f : heap -> heap) : M unit := fun h => (Ret tt, f h).

(** Runs [f] on the elements of [l] in order and collects the results. *)
Fixpoint mapM {A B} (f : A -> M B) (l : list A) : M (list B) :=
  match l with
  | [] => mret []
  | a :: l' => b ← f a; bs ← mapM f l'; mret (b :: bs)
  end.

(** Field updates. *)
Definition with_next (f : addr -> addr) (h : heap) : heap :=
  mkHeap (f (next h)) (locators h) (bindings h) (concreteType h)
    (fnAfterResolveList h) (created h).
Definition with_locators (f : gmap addr Locator -> gmap addr Locator) (h : heap) : heap :=
  mkHeap (next h) (f (locators h)) (bindings h) (concreteType h)
    (fnAfterResolveList h) (created h).
Definition with_bindings
  (f : gmap addr shared_ptr_binding -> gmap addr shared_ptr_binding) (h : heap) : heap :=
  mkHeap (next h) (locators h) (f (bindings h)) (concreteType h)
    (fnAfterResolveList h) (created h).
Definition with_concreteType (f : gmap addr type_index -> gmap addr type_index)
  (h : heap) : heap :=
  mkHeap (next h) (locators h) (bindings h) (f (concreteType h))
    (fnAfterResolveList h) (created h).
Definition with_fnAfterResolveList
  (f : gmap addr (addr * list (Context -> Prog)) -> gmap addr (addr * list (Context -> Prog)))
  (h : heap) : heap :=
  mkHeap (next h) (locators h) (bindings h) (concreteType h)
    (f (fnAfterResolveList h)) (created h).
Definition with_created (f : list addr -> list addr) (h : heap) : heap :=
  mkHeap (next h) (locators h) (bindings h) (concreteType h)
    (fnAfterResolveList h) (f (created h)).

(** [new]: the next free address. *)
Definition alloc : M addr := fun h => (Ret (next h), with_next S h).

(** ** [ServiceLocator::Context]: construction and diagnostics *)

(** [Context(Context* parent, interfaceType, name)]. *)
Definition new_Context (parent : Context) (interfaceType : type_index) (name : string)
  : M Context :=
  a ← alloc;
  mret (mkContext a (_root parent) (Some parent) (_sl parent) interfaceType name).

(** [Context(wptr<ServiceLocator> sl, interfaceType, name)]: [_root] is [this]. *)
Definition new_root_Context (sl : ServiceLocator) (interfaceType : type_index)
  (name : string) : M Context :=
  a ← alloc;
  mret (mkContext a a None sl interfaceType name).

(** [Context(wptr<ServiceLocator> sl)]. *)
Definition new_top_Context (sl : ServiceLocator) : M Context :=
  new_root_Context sl typeid_void "".

(** The object behind [ServiceLocator::_context]. *)
Definition persistent_Context (sl : ServiceLocator) : Context :=
  mkContext (sl_context sl) (sl_context sl) None sl typeid_void "".

Definition getTypeName (t : type_index) : string := t.
Definition getInterfaceTypeName (c : Context) : string := getTypeName (_interfaceType c).

Fixpoint getResolvePath (h : heap) (c : Context) : string :=
  let path :=
    match c with
    | mkContext _ _ (Some p) _ _ _ =>
        match _parent p with
        | Some _ => getResolvePath h p +:+ " -> "
        | None => ""
        end
    | mkContext _ _ None _ _ _ => ""
    end in
  let path := path +:+ "resolve<" +:+ getInterfaceTypeName c +:+ ">(" +:+ _name c +:+ ")" in
  match concreteType h !! ctx_addr c with
  | Some t => path +:+ ".to<" +:+ getTypeName t +:+ ">"
  | None => path
  end.

Definition same_request (a b : Context) : bool :=
  bool_decide (_interfaceType a = _interfaceType b) && bool_decide (_name a = _name b).

Fixpoint checkRecursiveResolve (resolveCtx compareCtx : Context) : M unit :=
  if same_request resolveCtx compareCtx then
    path ← gets (fun h => getResolvePath h resolveCtx);
    throw (RecursiveResolveException ("Recursive resolve path = " +:+ path))
  else
    match compareCtx with
    | mkContext _ _ (Some p) _ _ _ => checkRecursiveResolve resolveCtx p
    | mkContext _ _ None _ _ _ => mret tt
    end.

Definition setConcreteType (c : Context) (concrete : type_index) : M unit :=
  cur ← gets (fun h => concreteType h !! ctx_addr c);
  match cur with
  | Some _ => throw (BindingIssueException "Concrete type on Context already set")
  | None => modify (with_concreteType <[ctx_addr c := concrete]>)
  end.

(** [afterResolve(fnAfterResolve)]: the callback goes to the list of [_root],
    which is allocated on first use. *)
Definition afterResolve_push (c : Context) (fn : Context -> Prog) : M unit :=
  cur ← gets (fun h => fnAfterResolveList h !! _root c);
  match cur with
  | None =>
      l ← alloc;
      modify (with_fnAfterResolveList <[_root c := (l, [fn])]>)
  | Some (l, fns) =>
      modify (with_fnAfterResolveList <[_root c := (l, fns ++ [fn])]>)
  end.

Definition unable_to_resolve {A} (slc : Context) : M A :=
  path ← gets (fun h => getResolvePath h slc);
  throw (UnableToResolveException
           ("Unable to resolve <" +:+ getInterfaceTypeName slc +:+ ">  resolve path = " +:+ path)).

(** The [TypedServiceLocator<IFace>] of the locator at [a], if it has one. *)
Definition typed_locator_at (h : heap) (a : addr) (iface : type_index)
  : option TypedServiceLocator :=
  L ← locators h !! a; _typed_locators L !! iface.

(** The binding registered for [(iface, name)] in the own registry of the
    locator at [a]. *)
Definition binding_at (h : heap) (a : addr) (iface : type_index) (name : string)
  : option addr :=
  nsl ← typed_locator_at h a iface; smap.find name nsl.

(** [getTypedServiceLocator<IFace>(false)]. *)
Definition getTypedServiceLocator (sl : ServiceLocator) (iface : type_index)
  : M (option TypedServiceLocator) :=
  gets (fun h => typed_locator_at h (sl_addr sl) iface).

(** [TypedServiceLocator::canResolve]. *)
Definition typed_canResolve (nsl : TypedServiceLocator) (name : string) : bool :=
  bool_decide (is_Some (smap.find name nsl)).

(** ** The engine, over an interpreter for client code *)

Section Engine.
(** [exec] runs client code; [rounds] bounds the loop of [afterResolve]. *)
Variable exec : Prog -> M sptr.
Variable rounds : nat.

(** A call of [_ibinding->_fnCreate], recorded in the construction trace. *)
Definition call_fnCreate (b : addr) (slc : Context) : M sptr :=
  ob ← gets (fun h => bindings h !! b);
  match ob ≫= _fnCreate with
  | None => throw bad_function_call
  | Some f => modify (with_created (fun l => l ++ [b]));; exec (f slc)
  end.

(** [_singleton = ...] and the rebinding of [_fnGet] to the inner lambda. *)
Definition store_singleton (b : addr) (v : sptr) : heap -> heap :=
  with_bindings
    (alter (fun bd => mkBinding (iface bd) fn_cached (_fnCreate bd)
                        (_eagerBindings_of bd) v) b).

(** [shared_ptr_binding::get], that is [_fnGet(slc)]. *)
Definition binding_get (b : addr) (slc : Context) : M sptr :=
  ob ← gets (fun h => bindings h !! b);
  match ob with
  | None => stop Undefined
  | Some bd =>
      match _fnGet bd with
      | fn_empty => throw bad_function_call
      | fn_create => call_fnCreate b slc
      | fn_instance instance => mret instance
      | fn_singleton =>
          v ← call_fnCreate b slc;
          modify (store_singleton b v);;
          mret v
      | fn_cached => mret (_singleton bd)
      end
  end.

(** [TypedServiceLocator::tryResolve]. *)
Definition typed_tryResolve (nsl : TypedServiceLocator) (name : string)
  (slc : Context) : M sptr :=
  match smap.find name nsl with
  | None => mret None
  | Some b => binding_get b slc
  end.

(** [ServiceLocator::_resolve<IFace>]. *)
Fixpoint _resolve (sl : ServiceLocator) (iface : type_index) (slc : Context)
  : M sptr :=
  let to_parent : M sptr :=
    match sl with
    | RootLocator _ _ => unable_to_resolve slc
    | ChildLocator _ _ parent => _resolve parent iface slc
    end in
  nsl ← getTypedServiceLocator sl iface;
  match nsl with
  | None => to_parent
  | Some nsl =>
      ptr ← typed_tryResolve nsl (_name slc) slc;
      match ptr with
      | None => to_parent
      | Some _ => mret ptr
      end
  end.

(** [ServiceLocator::_tryResolve<IFace>]. *)
Fixpoint _tryResolve (sl : ServiceLocator) (iface : type_index) (slc : Context)
  : M sptr :=
  nsl ← getTypedServiceLocator sl iface;
  match nsl with
  | None =>
      match sl with
      | RootLocator _ _ => mret None
      | ChildLocator _ _ parent => _tryResolve parent iface slc
      end
  | Some nsl =>
      ptr ← typed_tryResolve nsl (_name slc) slc;
      match ptr, sl with
      | None, ChildLocator _ _ parent => _tryResolve parent iface slc
      | _, _ => mret ptr
      end
  end.

(** [ServiceLocator::_canResolve<IFace>]. *)
Fixpoint _canResolve (sl : ServiceLocator) (iface : type_index) (slc : Context)
  : M bool :=
  nsl ← getTypedServiceLocator sl iface;
  match nsl with
  | None =>
      match sl with
      | RootLocator _ _ => mret false
      | ChildLocator _ _ parent => _canResolve parent iface slc
      end
  | Some nsl => mret (typed_canResolve nsl (_name slc))
  end.

(** [_visitAll]: the bindings of this locator in the order of [_bindings],
    then those of the parent. *)
Fixpoint _visitAll {A} (sl : ServiceLocator) (iface : type_index)
  (fnVisit : addr -> M A) : M (list A) :=
  nsl ← getTypedServiceLocator sl iface;
  here ← match nsl with
         | None => mret []
         | Some nsl => mapM fnVisit (smap.values nsl)
         end;
  match sl with
  | RootLocator _ _ => mret here
  | ChildLocator _ _ parent =>
      above ← _visitAll parent iface fnVisit;
      mret (here ++ above)
  end.

(** The range-for of [afterResolve()] over the list object [l] of [this]:
    [i] is the position of the iterator.  Callbacks pushed while the loop
    runs are reached; a list deleted under the loop is undefined
    behaviour. *)
Fixpoint afterResolve_loop (n : nat) (this : Context) (l : addr) (i : nat)
  : M unit :=
  cur ← gets (fun h => fnAfterResolveList h !! ctx_addr this);
  match cur with
  | None => stop Undefined
  | Some (l', fns) =>
      if bool_decide (l' = l) then
        match fns !! i with
        | None => mret tt
        | Some fn =>
            match n with
            | 0 => stop OutOfFuel
            | S n' =>
                ctx ← new_top_Context (_sl this);
                exec (fn ctx);;
                afterResolve_loop n' this l (S i)
            end
        end
      else stop Undefined
  end.

(** [Context::afterResolve()]. *)
Definition afterResolve (this : Context) : M unit :=
  if bool_decide (ctx_addr this = _root this) then
    cur ← gets (fun h => fnAfterResolveList h !! ctx_addr this);
    match cur with
    | None => mret tt
    | Some (l, _) =>
        afterResolve_loop rounds this l 0;;
        modify (with_fnAfterResolveList (delete (ctx_addr this)))
    end
  else mret tt.

(** [Context::resolve<IFace>(named)]. *)
Definition resolve (this : Context) (iface : type_index) (named : string)
  : M sptr :=
  ctx ← new_Context this iface named;
  checkRecursiveResolve ctx this;;
  ptr ← _resolve (_sl this) iface ctx;
  afterResolve this;;
  mret ptr.

(** [Context::tryResolve<IFace>(named)]. *)
Definition tryResolve (this : Context) (iface : type_index) (named : string)
  : M sptr :=
  ctx ← new_Context this iface named;
  checkRecursiveResolve ctx this;;
  ptr ← _tryResolve (_sl this) iface ctx;
  afterResolve this;;
  mret ptr.

(** [Context::canResolve<IFace>(named)]. *)
Definition canResolve (this : Context) (iface : type_index) (named : string)
  : M bool :=
  ctx ← new_Context this iface named;
  _canResolve (_sl this) iface ctx.

(** The lambda handed to [_visitAll] by [resolveAll]. *)
Definition resolveAll_visit (this : Context) (iface : type_index) (binding : addr)
  : M sptr :=
  ctx ← new_Context this iface "";
  checkRecursiveResolve ctx this;;
  binding_get binding ctx.

(** [Context::resolveAll<IFace>(all)]; the result is what is pushed to [all]. *)
Definition resolveAll (this : Context) (iface : type_index) : M (list sptr) :=
  all ← _visitAll (_sl this) iface (resolveAll_visit this iface);
  afterResolve this;;
  mret all.

(** A call of the lambda returned by [Context::provider<IFace>()]. *)
Definition provider (this : Context) (iface : type_index) (name : string)
  : M sptr :=
  ctx ← new_root_Context (_sl this) iface name;
  ptr ← _resolve (_sl this) iface ctx;
  afterResolve ctx;;
  mret ptr.

(** A call of the lambda returned by [Context::tryProvider<IFace>()]. *)
Definition tryProvider (this : Context) (iface : type_index) (name : string)
  : M sptr :=
  ctx ← new_root_Context (_sl this) iface name;
  ptr ← _tryResolve (_sl this) iface ctx;
  afterResolve ctx;;
  mret ptr.

(** One level of client code: every call goes to the engine, which runs the
    code of the bindings and callbacks it reaches through [exec]. *)
Fixpoint interp (p : Prog) : M sptr :=
  match p with
  | Return v => mret v
  | Throw e => throw e
  | New k => o ← alloc; interp (k o)
  | Resolve c i n k => v ← resolve c i n; interp (k v)
  | TryResolve c i n k => v ← tryResolve c i n; interp (k v)
  | CanResolve c i n k => b ← canResolve c i n; interp (k b)
  | ResolveAll c i k => vs ← resolveAll c i; interp (k vs)
  | AfterResolve c fn k => afterResolve_push c fn;; interp k
  | SetConcreteType c t k => setConcreteType c t;; interp k
  | Provider c i n k => v ← provider c i n; interp (k v)
  | TryProvider c i n k => v ← tryProvider c i n; interp (k v)
  end.

(** [shared_ptr_binding::eagerBind]. *)
Definition eagerBind (b : addr) (slc : Context) : M unit :=
  ob ← gets (fun h => bindings h !! b);
  match ob with
  | None => stop Undefined
  | Some bd =>
      ctx ← new_Context slc (iface bd) "";
      binding_get b ctx;;
      mret tt
  end.

Definition clear_eagerBindings (sl : ServiceLocator) : heap -> heap :=
  with_locators (alter (fun L => mkLocator (_typed_locators L) []) (sl_addr sl)).

(** [ServiceLocator::getContext]. *)
Definition getContext (sl : ServiceLocator) : M Context :=
  eager ← gets (fun h => default [] (_eagerBindings <$> locators h !! sl_addr sl));
  match eager with
  | [] => mret tt
  | _ :: _ =>
      mapM (fun eagerBinding => eagerBind eagerBinding (persistent_Context sl)) eager;;
      modify (clear_eagerBindings sl)
  end;;
  mret (persistent_Context sl).
End Engine.

(** The interpreter of client code: [fuel] bounds the depth of the calls
    from the engine into client code and the length of each after-resolve
    loop. *)
Fixpoint run (fuel : nat) (p : Prog) : M sptr :=
  match fuel with
  | 0 => stop OutOfFuel
  | S fuel' => interp (run fuel') fuel' p
  end.

(** ** Setting up a locator *)

(** [ServiceLocator::create]. *)
Definition create : M ServiceLocator :=
  a ← alloc;
  c ← alloc;
  modify (with_locators <[a := mkLocator ∅ []]>);;
  mret (RootLocator a c).

(** [ServiceLocator::enter]. *)
Definition enter (this : ServiceLocator) : M ServiceLocator :=
  a ← alloc;
  c ← alloc;
  modify (with_locators <[a := mkLocator ∅ []]>);;
  mret (ChildLocator a c this).

Definition put_typed_locator (sl : ServiceLocator) (iface : type_index)
  (nsl : TypedServiceLocator) : heap -> heap :=
  with_locators
    (alter (fun L => mkLocator (<[iface := nsl]> (_typed_locators L)) (_eagerBindings L))
       (sl_addr sl)).

(** [ServiceLocator::bind<IFace>(named)]: [getTypedServiceLocator<IFace>(true)]
    followed by [TypedServiceLocator::bind].  The result is the address of
    the new binding, which stands for its [to_clause]. *)
Definition bind (sl : ServiceLocator) (iface : type_index) (named : string)
  : M addr :=
  found ← getTypedServiceLocator sl iface;
  let nsl := default [] found in
  modify (put_typed_locator sl iface nsl);;
  if typed_canResolve nsl named then
    throw (DuplicateBindingException
             ("Duplicate binding for <" +:+ iface +:+ "> named " +:+ named))
  else
    binding ← alloc;
    modify (with_bindings <[binding := mkBinding iface fn_empty None (sl_addr sl) None]>);;
    modify (put_typed_locator sl iface (smap.insert named binding nsl));;
    mret binding.

Definition set_fnGet (b : addr) (g : fnGet_t) : M unit :=
  modify (with_bindings
            (alter (fun bd => mkBinding (iface bd) g (_fnCreate bd)
                                (_eagerBindings_of bd) (_singleton bd)) b)).

(** [_ibinding->_fnGet = _ibinding->_fnCreate = f]. *)
Definition set_fnCreate (b : addr) (f : Context -> Prog) : M unit :=
  modify (with_bindings
            (alter (fun bd => mkBinding (iface bd) fn_create (Some f)
                                (_eagerBindings_of bd) (_singleton bd)) b)).

(** [to_clause::toInstance]. *)
Definition toInstance (b : addr) (instance : sptr) : M unit :=
  set_fnGet b (fn_instance instance).

(** [to_clause::to<TImpl>()], [toSelf], [toNoDependancy], [toSelfNoDependancy]:
    [ctor] is the body of the constructor of [TImpl]. *)
Definition to (b : addr) (TImpl : type_index) (ctor : Context -> Prog) : M unit :=
  set_fnCreate b
    (fun slc => SetConcreteType slc TImpl
                  (pbind (ctor slc) (fun _ => New (fun o => Return (Some o))))).

(** [to_clause::to<TImpl>(fnCreate)]. *)
Definition to_fn (b : addr) (TImpl : type_index) (fnCreate : Context -> Prog)
  : M unit :=
  set_fnCreate b (fun slc => SetConcreteType slc TImpl (fnCreate slc)).

(** [to_clause::alias<IAlias>(name)] and [alias(name)]. *)
Definition alias (b : addr) (IAlias : type_index) (name : string) : M unit :=
  set_fnCreate b (fun slc => Resolve slc IAlias name Return).

(** [to_clause::alias<IAlias>()]. *)
Definition alias_same_name (b : addr) (IAlias : type_index) : M unit :=
  set_fnCreate b (fun slc => Resolve slc IAlias (_name slc) Return).

(** [as_clause::asSingleton]. *)
Definition asSingleton (b : addr) : M unit := set_fnGet b fn_singleton.

(** [as_clause::asTransient]. *)
Definition asTransient (b : addr) : M unit := set_fnGet b fn_create.

(** [eagerly_clause::eagerly]. *)
Definition eagerly (b : addr) : M unit :=
  ob ← gets (fun h => bindings h !! b);
  match ob with
  | None => stop Undefined
  | Some bd =>
      modify (with_locators
                (alter (fun L => mkLocator (_typed_locators L) (_eagerBindings L ++ [b]))
                   (_eagerBindings_of bd)))
  end.

(** ** Notions used in the statements *)

(** The new context [ctx] repeats the request of [this] or of one of its
    ancestors. *)
Definition recursive_request (ctx this : Context) : Prop :=
  exists c, c ∈ ctx_chain this /\
            _interfaceType c = _interfaceType ctx /\ _name c = _name ctx.

(** The binding of the pair in the closest scope that has one. *)
Fixpoint nearest_binding (h : heap) (sl : ServiceLocator) (iface : type_index)
  (name : string) : option addr :=
  match binding_at h (sl_addr sl) iface name with
  | Some b => Some b
  | None =>
      match sl with
      | RootLocator _ _ => None
      | ChildLocator _ _ parent => nearest_binding h parent iface name
      end
  end.

(** What a binding may become while client code runs: nothing changes but
    the step of a singleton from the outer lambda to the cached instance. *)
Definition binding_le (bd bd' : shared_ptr_binding) : Prop :=
  iface bd' = iface bd
  /\ _fnCreate bd' = _fnCreate bd
  /\ _eagerBindings_of bd' = _eagerBindings_of bd
  /\ (bd' = bd \/ (_fnGet bd = fn_singleton /\ _fnGet bd' = fn_cached)).

(** Every callback list was handed out by the allocator. *)
Definition lists_allocated (h : heap) : Prop :=
  forall r l fns, fnAfterResolveList h !! r = Some (l, fns) -> l < next h.

(** [h'] is reached from [h] by resolution activity: the registries are
    those of [h], bindings only move along [binding_le], a callback list
    present in both has only grown at its end, and the construction trace
    has only grown. *)
Record evolves (h h' : heap) : Prop :=
  mkEvolves {
      ev_next : next h <= next h';
      ev_locators : locators h' = locators h;
      ev_bindings :
        forall b bd, bindings h !! b = Some bd ->
                     exists bd', bindings h' !! b = Some bd' /\ binding_le bd bd';
      ev_lists :
        forall r l fns',
          fnAfterResolveList h' !! r = Some (l, fns') ->
          next h <= l \/
          exists fns, fnAfterResolveList h !! r = Some (l, fns) /\ fns `prefix_of` fns';
      ev_allocated : lists_allocated h -> lists_allocated h';
      ev_created : created h `prefix_of` created h'
    }.

Definition preserves {A} (m : M A) : Prop := forall h, evolves h (snd (m h)).

(** The bindings of a capability along the chain of [sl], closest scope
    first, each locator's in the order of its [_bindings]. *)
Definition enumerate (h : heap) (sl : ServiceLocator) (iface : type_index) : list addr :=
  flat_map (fun a => smap.values (default [] (typed_locator_at h a iface))) (sl_chain sl).

(** Every name map of the heap is in ascending key order. *)
Definition registry_sorted (h : heap) : Prop :=
  forall a iface nsl,
    typed_locator_at h a iface = Some nsl -> smap.ascending (smap.keys nsl).

(** A check of [registry_sorted] that computes. *)
Fixpoint ascendingb (ks : list string) : bool :=
  match ks with
  | [] => true
  | k :: ks' =>
      match ks' with
      | [] => true
      | k' :: _ => match String.compare k k' with Lt => true | _ => false end
      end && ascendingb ks'
  end.

Definition registry_sortedb (h : heap) : bool :=
  forallb (fun aL : addr * Locator =>
             forallb (fun inl : type_index * TypedServiceLocator =>
                        ascendingb (smap.keys inl.2))
               (map_to_list (_typed_locators aL.2)))
    (map_to_list (locators h)).

(** The pending eager bindings of a locator. *)
Definition eager_of (h : heap) (sl : ServiceLocator) : list addr :=
  default [] (_eagerBindings <$> locators h !! sl_addr sl).

(** Every callback of [fns] in turn, each on a context of its own made by
    [Context(_sl)]. *)
Definition run_callbacks (exec : Prog -> M sptr) (sl : ServiceLocator)
  (fns : list (Context -> Prog)) : M unit :=
  mapM (fun fn => ctx ← new_top_Context sl; exec (fn ctx)) fns;; mret tt.

(** [m'] agrees with [m] wherever [m] does not run out of fuel. *)
Definition fuel_le {A} (m m' : M A) : Prop :=
  forall h, fst (m h) <> Abort OutOfFuel -> m' h = m h.


(** A concrete type recorded in [h] is still recorded in [h']. *)
Definition types_kept (h h' : heap) : Prop :=
  forall a t, concreteType h !! a = Some t -> concreteType h' !! a = Some t.

(** [m] keeps every recorded concrete type. *)
Definition keeps_types {A} (m : M A) : Prop := forall h, types_kept h (snd (m h)).

(** One frame of a resolve path: the request of [c] and, once it is set,
    its concrete type. *)
Definition render (h : heap) (c : Context) : string :=
  "resolve<" +:+ getInterfaceTypeName c +:+ ">(" +:+ _name c +:+ ")"
  +:+ match concreteType h !! ctx_addr c with
      | Some t => ".to<" +:+ getTypeName t +:+ ">"
      | None => ""
      end.

(** The contexts a resolve path shows, outermost first: [c] and its
    ancestors without the outermost one, unless [c] has no parent. *)
Definition path_frames (c : Context) : list Context :=
  match ctx_chain c with
  | [c0] => [c0]
  | l => rev (removelast l)
  end.

(** ** Scenarios *)

(** Small set-ups in the style of [tests/ServiceLocatorTests.cpp], each run
    from the empty heap.  [create] takes the addresses 0 and 1, so the root
    locator of every scenario is [root]. *)
Module Scenario.
Definition root : ServiceLocator := RootLocator 0 1.

(** A parent binding [ITest] unnamed to an instance, a child binding
    [ITest] under the name [X] only. *)
Definition shadowed_type : M (ServiceLocator * ServiceLocator) :=
  parent ← create;
  b ← bind parent "ITest" "";
  toInstance b (Some 100);;
  child ← enter parent;
  b' ← bind child "ITest" "X";
  toInstance b' (Some 200);;
  mret (parent, child).

Definition shadowed_type_heap : heap := snd (shadowed_type empty_heap).
Definition shadowed_type_child : ServiceLocator := ChildLocator 3 4 root.

(** "Nested locator": the parent and the first child bind [ITest]
    unnamed, the second child binds nothing. *)
Definition scoping : M (ServiceLocator * ServiceLocator * ServiceLocator) :=
  parent ← create;
  b ← bind parent "ITest" "";
  toInstance b (Some 100);;
  child1 ← enter parent;
  child2 ← enter parent;
  b1 ← bind child1 "ITest" "";
  toInstance b1 (Some 200);;
  mret (parent, child1, child2).

Definition scoping_heap : heap := snd (scoping empty_heap).
Definition child1 : ServiceLocator := ChildLocator 3 4 root.
Definition child2 : ServiceLocator := ChildLocator 5 6 root.

(** The parent binds [ITest] to an instance, the child binds it to a
    factory that returns [nullptr]. *)
Definition null_factory : Context -> Prog := fun _ => Return None.


Definition null_child_child : ServiceLocator := ChildLocator 3 4 root.

(** "Basic type binding as Singleton". *)
Definition no_dependency : Context -> Prog := fun _ => Return None.

(** As [null_child], with the parent bound through [to<TestA>()]. *)
Definition null_over_typed : M (ServiceLocator * ServiceLocator) :=
  parent ← create;
  b ← bind parent "ITest" "";
  to b "TestA" no_dependency;;
  child ← enter parent;
  b1 ← bind child "ITest" "";
  to_fn b1 "TestB" null_factory;;
  mret (parent, child).

Definition null_over_typed_heap : heap := snd (null_over_typed empty_heap).

Definition singleton : M ServiceLocator :=
  sl ← create;
  b ← bind sl "ITest" "";
  to b "TestA" no_dependency;;
  asSingleton b;;
  mret sl.

Definition singleton_heap : heap := snd (singleton empty_heap).

(** [_fnCreate] of the binding of [singleton], as [to] builds it. *)
Definition singleton_fnCreate : Context -> Prog :=
  fun slc =>
    SetConcreteType slc "TestA"
      (pbind (no_dependency slc) (fun _ => New (fun o => Return (Some o)))).

Definition singleton_binding : shared_ptr_binding :=
  mkBinding "ITest" fn_singleton (Some singleton_fnCreate) 0 None.

(** "Eager binding". *)
Definition eager : M ServiceLocator :=
  sl ← create;
  b ← bind sl "TestEager" "";
  to b "TestEager" no_dependency;;
  asSingleton b;;
  eagerly b;;
  mret sl.

Definition eager_heap : heap := snd (eager empty_heap).

(** Two names of one capability, registered in the order [B], [A]. *)
Definition order : M ServiceLocator :=
  sl ← create;
  b1 ← bind sl "ITest" "B";
  toInstance b1 (Some 100);;
  b2 ← bind sl "ITest" "A";
  toInstance b2 (Some 200);;
  mret sl.

Definition order_heap : heap := snd (order empty_heap).

(** [ITest] named [a] resolves [ITest] named [b] in its constructor;
    [ITest] named [loop] resolves itself. *)
Definition reentrant : M ServiceLocator :=
  sl ← create;
  a ← bind sl "ITest" "a";
  to a "TestA" (fun slc => Resolve slc "ITest" "b" (fun _ => Return None));;
  b ← bind sl "ITest" "b";
  to b "TestB" no_dependency;;
  l ← bind sl "ITest" "loop";
  to l "TestC" (fun slc => Resolve slc "ITest" "loop" (fun _ => Return None));;
  mret sl.

Definition reentrant_heap : heap := snd (reentrant empty_heap).

(** A context in the construction of [ITest] named [a], and the heap once
    it is allocated. *)
Definition constructing_a : Context :=
  mkContext 5 1 (Some (persistent_Context root)) root "ITest" "a".
Definition constructing_a_heap : heap := with_next S reentrant_heap.

(** A capability bound under a name only; the constructor looks for the
    unnamed binding of the same capability. *)
Definition named_only : M ServiceLocator :=
  sl ← create;
  b ← bind sl "ITest" "X";
  to b "TestC" (fun slc => TryResolve slc "ITest" "" (fun _ => Return None));;
  mret sl.

Definition named_only_heap : heap := snd (named_only empty_heap).

(** The context [resolveAll] and [eagerBind] make for that binding, and the
    heap once it is allocated. *)
Definition visiting_X : Context :=
  mkContext 3 1 (Some (persistent_Context root)) root "ITest" "".
Definition visiting_X_heap : heap := with_next S named_only_heap.

(** The constructor registers a callback, and that callback registers a
    second one on the list of the same root.  Each callback marks the
    context it is given. *)
Definition deferred : M ServiceLocator :=
  sl ← create;
  b ← bind sl "ITest" "";
  to b "TestA"
    (fun slc =>
       AfterResolve slc
         (fun ctx1 =>
            SetConcreteType ctx1 "first"
              (AfterResolve slc
                 (fun ctx2 => SetConcreteType ctx2 "second" (Return None))
                 (Return None)))
         (Return None));;
  mret sl.

Definition deferred_heap : heap := snd (deferred empty_heap).

(** As [deferred], but the first callback registers the second one through
    the context it is given. *)
Definition deferred_own_context : M ServiceLocator :=
  sl ← create;
  b ← bind sl "ITest" "";
  to b "TestA"
    (fun slc =>
       AfterResolve slc
         (fun ctx1 =>
            SetConcreteType ctx1 "first"
              (AfterResolve ctx1
                 (fun ctx2 => SetConcreteType ctx2 "second" (Return None))
                 (Return None)))
         (Return None));;
  mret sl.

Definition deferred_own_context_heap : heap := snd (deferred_own_context empty_heap).

(** The binding of [ITest] named [b] in [reentrant], as [bind] and [to]
    leave it: a transient binding at address 3. *)
Definition transient_fnCreate : Context -> Prog :=
  fun slc =>
    SetConcreteType slc "TestB"
      (pbind (no_dependency slc) (fun _ => New (fun o => Return (Some o)))).

Definition transient_binding : shared_ptr_binding :=
  mkBinding "ITest" fn_create (Some transient_fnCreate) 0 None.

(** Two contexts for requests of [ITest] named [b]. *)
Definition constructing_b : Context :=
  mkContext 5 1 (Some (persistent_Context root)) root "ITest" "b".
Definition constructing_b' : Context :=
  mkContext 7 1 (Some (persistent_Context root)) root "ITest" "b".

(** [IAlias] forwards to [ITest], [ILoop] forwards to itself. *)
Definition aliased : M ServiceLocator :=
  sl ← create;
  b ← bind sl "ITest" "";
  toInstance b (Some 100);;
  a ← bind sl "IAlias" "";
  alias a "ITest" "";;
  l ← bind sl "ILoop" "";
  alias l "ILoop" "";;
  mret sl.

Definition aliased_heap : heap := snd (aliased empty_heap).

(** An alias binding of [source] to the unnamed [target], as [bind] and
    [alias] leave it. *)
Definition alias_binding (target : type_index) (source : type_index) : shared_ptr_binding :=
  mkBinding source fn_create (Some (fun slc => Resolve slc target "" Return)) 0 None.

(** A singleton of the parent and two children that bind nothing. *)
Definition shared_singleton : M (ServiceLocator * ServiceLocator * ServiceLocator) :=
  parent ← create;
  b ← bind parent "ITest" "";
  to b "TestA" no_dependency;;
  asSingleton b;;
  child1 ← enter parent;
  child2 ← enter parent;
  mret (parent, child1, child2).

Definition shared_singleton_heap : heap := snd (shared_singleton empty_heap).

(** An eager singleton whose constructor throws. *)
Definition eager_failing : M ServiceLocator :=
  sl ← create;
  b ← bind sl "TestEager" "";
  to b "TestEager" (fun _ => Throw (client_exception "constructor failed"));;
  asSingleton b;;
  eagerly b;;
  mret sl.

Definition eager_failing_heap : heap := snd (eager_failing empty_heap).
End Scenario.

(** * Properties *)

(** ** The monad *)

Lemma bind_eq {A B} (m : M A) (f : A -> M B) h :
  (m ≫= f) h =
    match m h with
    | (Ret a, h') => f a h'
    | (Exc e, h') => (Exc e, h')
    | (Abort r, h') => (Abort r, h')
    end.
Proof. reflexivity. Qed.

Lemma mret_eq {A} (a : A) h : (mret a : M A) h = (Ret a, h).
Proof. reflexivity. Qed.

Lemma modify_eq f h : modify f h = (Ret tt, f h).
Proof. reflexivity. Qed.

Lemma gets_eq {A} (f : heap -> A) h : gets f h = (Ret (f h), h).
Proof. reflexivity. Qed.

Lemma alloc_eq h : alloc h = (Ret (next h), with_next S h).
Proof. reflexivity. Qed.

Lemma getTypedServiceLocator_eq sl iface h :
  getTypedServiceLocator sl iface h = (Ret (typed_locator_at h (sl_addr sl) iface), h).
Proof. reflexivity. Qed.

(** Runs the monad on the heap at hand as far as the primitives go. *)
Ltac msimpl :=
  repeat (first [rewrite bind_eq | rewrite mret_eq | rewrite modify_eq
                | rewrite gets_eq | rewrite alloc_eq
                | rewrite getTypedServiceLocator_eq]; cbv beta iota).

(** ** [smap] *)

Lemma smap_find_values {V} (k : string) (m : smap.t V) v :
  smap.find k m = Some v -> v ∈ smap.values m.
Proof.
  induction m as [|[k' v'] m IH]; simpl; [discriminate|].
  destruct (String.eqb k k').
  - intros [= ->]. apply list_elem_of_here.
  - intros E. apply list_elem_of_further, IH, E.
Qed.

Lemma smap_insert_head {V} (k : string) (v : V) m :
  match smap.keys (smap.insert k v m), smap.keys m with
  | k1 :: _, k2 :: _ => k1 = k \/ k1 = k2
  | k1 :: _, [] => k1 = k
  | [], _ => False
  end.
Proof.
  destruct m as [|[k' v'] m]; simpl; [reflexivity|].
  destruct (String.compare k k'); simpl; auto.
Qed.

Lemma smap_insert_ascending {V} (k : string) (v : V) m :
  smap.ascending (smap.keys m) -> smap.ascending (smap.keys (smap.insert k v m)).
Proof.
  induction m as [|[k' v'] m IH]; simpl; [tauto|].
  intros [Hhd Htl].
  destruct (String.compare k k') eqn:E; simpl; [tauto|tauto|].
  split; [|apply IH, Htl].
  pose proof (smap_insert_head k v m) as Hh.
  assert (Hk : String.compare k' k = Lt)
    by (rewrite String.compare_antisym, E; reflexivity).
  destruct (smap.keys (smap.insert k v m)) as [|k1 ks]; [trivial|].
  destruct (smap.keys m) as [|k2 ks2].
  - subst k1. exact Hk.
  - destruct Hh as [-> | ->]; [exact Hk | exact Hhd].
Qed.

Lemma smap_find_insert {V} (k : string) (v : V) m :
  smap.find k m = None -> smap.find k (smap.insert k v m) = Some v.
Proof.
  induction m as [|[k' v'] m IH]; simpl.
  - rewrite String.eqb_refl. reflexivity.
  - destruct (String.eqb_spec k k') as [->|Hne]; [discriminate|].
    intros Hnone.
    destruct (String.compare k k') eqn:E; simpl.
    + apply String.compare_eq_iff in E. contradiction.
    + rewrite String.eqb_refl. reflexivity.
    + destruct (String.eqb_spec k k'); [contradiction|]. apply IH, Hnone.
Qed.

Lemma smap_find_insert_ne {V} (k k0 : string) (v : V) m :
  k0 <> k -> smap.find k0 (smap.insert k v m) = smap.find k0 m.
Proof.
  intros Hne. induction m as [|[k' v'] m IH]; simpl.
  - destruct (String.eqb_spec k0 k); [contradiction|reflexivity].
  - destruct (String.compare k k') eqn:E; simpl.
    + reflexivity.
    + destruct (String.eqb_spec k0 k); [contradiction|reflexivity].
    + destruct (String.eqb k0 k'); [reflexivity|apply IH].
Qed.

(** ** Reading the registry *)

Lemma typed_canResolve_true nsl name :
  typed_canResolve nsl name = true <-> is_Some (smap.find name nsl).
Proof. unfold typed_canResolve. apply bool_decide_eq_true. Qed.

Lemma binding_at_None_cases h a iface name :
  binding_at h a iface name = None ->
  typed_locator_at h a iface = None \/
  exists nsl, typed_locator_at h a iface = Some nsl /\ smap.find name nsl = None.
Proof.
  unfold binding_at. destruct (typed_locator_at h a iface) as [nsl|]; simpl; eauto.
Qed.

Lemma binding_at_Some_cases h a iface name b :
  binding_at h a iface name = Some b ->
  exists nsl, typed_locator_at h a iface = Some nsl /\ smap.find name nsl = Some b.
Proof.
  unfold binding_at. destruct (typed_locator_at h a iface) as [nsl|]; simpl;
    [eauto|discriminate].
Qed.

Lemma typed_locator_at_put sl iface nsl h a0 iface0 :
  typed_locator_at (put_typed_locator sl iface nsl h) a0 iface0 =
    if decide (a0 = sl_addr sl /\ iface0 = iface /\ is_Some (locators h !! a0))
    then Some nsl else typed_locator_at h a0 iface0.
Proof.
  unfold typed_locator_at, put_typed_locator. simpl.
  destruct (decide (a0 = sl_addr sl)) as [->|Hne].
  - rewrite lookup_alter_eq. destruct (locators h !! sl_addr sl) as [L|]; simpl.
    + destruct (decide (iface0 = iface)) as [->|Hi].
      * rewrite lookup_insert_eq. rewrite decide_True; [reflexivity|eauto].
      * rewrite lookup_insert_ne by congruence. rewrite decide_False; [reflexivity|tauto].
    + rewrite decide_False; [reflexivity|]. intros (_ & _ & [? ?]). discriminate.
  - rewrite lookup_alter_ne by congruence. rewrite decide_False; [reflexivity|tauto].
Qed.


Lemma locators_put_is_Some sl iface nsl h a :
  is_Some (locators h !! a) -> is_Some (locators (put_typed_locator sl iface nsl h) !! a).
Proof.
  unfold put_typed_locator. simpl. intros [L HL].
  destruct (decide (a = sl_addr sl)) as [->|Hne].
  - rewrite lookup_alter_eq, HL. simpl. eauto.
  - rewrite lookup_alter_ne by congruence. eauto.
Qed.

(** One step of [_resolve]: the own registry is consulted, a missing binding
    and a null instance both continue with the parent. *)
Lemma _resolve_step exec sl iface slc h :
  _resolve exec sl iface slc h =
    let to_parent : M sptr :=
      match sl with
      | RootLocator _ _ => unable_to_resolve slc
      | ChildLocator _ _ parent => _resolve exec parent iface slc
      end in
    match binding_at h (sl_addr sl) iface (_name slc) with
    | None => to_parent h
    | Some b =>
        match binding_get exec b slc h with
        | (Ret None, h') => to_parent h'
        | r => r
        end
    end.
Proof.
  unfold binding_at.
  destruct sl as [a c|a c p]; simpl;
    rewrite bind_eq, getTypedServiceLocator_eq; simpl;
    destruct (typed_locator_at h a iface) as [nsl|]; simpl; try reflexivity;
    rewrite bind_eq; unfold typed_tryResolve;
    destruct (smap.find (_name slc) nsl) as [b|]; simpl; try reflexivity;
    destruct (binding_get exec b slc h) as [[[o|]|e|r] h']; reflexivity.
Qed.

Lemma _tryResolve_step exec sl iface slc h :
  _tryResolve exec sl iface slc h =
    let to_parent : M sptr :=
      match sl with
      | RootLocator _ _ => mret None
      | ChildLocator _ _ parent => _tryResolve exec parent iface slc
      end in
    match binding_at h (sl_addr sl) iface (_name slc) with
    | None => to_parent h
    | Some b =>
        match binding_get exec b slc h with
        | (Ret None, h') => to_parent h'
        | r => r
        end
    end.
Proof.
  unfold binding_at.
  destruct sl as [a c|a c p]; simpl;
    rewrite bind_eq, getTypedServiceLocator_eq; simpl;
    destruct (typed_locator_at h a iface) as [nsl|]; simpl; try reflexivity;
    rewrite bind_eq; unfold typed_tryResolve;
    destruct (smap.find (_name slc) nsl) as [b|]; simpl; try reflexivity;
    destruct (binding_get exec b slc h) as [[[o|]|e|r] h']; reflexivity.
Qed.

Lemma _canResolve_step sl iface slc h :
  _canResolve sl iface slc h =
    match typed_locator_at h (sl_addr sl) iface with
    | Some nsl => (Ret (typed_canResolve nsl (_name slc)), h)
    | None =>
        match sl with
        | RootLocator _ _ => (Ret false, h)
        | ChildLocator _ _ parent => _canResolve parent iface slc h
        end
    end.
Proof.
  destruct sl as [a c|a c p]; simpl;
    rewrite bind_eq, getTypedServiceLocator_eq; simpl;
    destruct (typed_locator_at h a iface); reflexivity.
Qed.

(** ** Contexts *)

Lemma Context_chain_ind (P : Context -> Prop) :
  (forall a r sl t n, P (mkContext a r None sl t n)) ->
  (forall a r p sl t n, P p -> P (mkContext a r (Some p) sl t n)) ->
  forall c, P c.
Proof.
  intros Hroot Hchild. fix IH 1.
  intros [a r [p|] sl t n]; [apply Hchild, IH | apply Hroot].
Qed.

Lemma same_request_true a b :
  same_request a b = true <->
  _interfaceType b = _interfaceType a /\ _name b = _name a.
Proof.
  unfold same_request. rewrite andb_true_iff, !bool_decide_eq_true. split; intros [-> ->]; auto.
Qed.

Lemma checkRecursiveResolve_raises ctx this h :
  recursive_request ctx this ->
  checkRecursiveResolve ctx this h =
    (Exc (RecursiveResolveException
            ("Recursive resolve path = " +:+ getResolvePath h ctx)), h).
Proof.
  induction this as [a r sl t n|a r p sl t n IH] using Context_chain_ind;
    intros (c & Hin & Ht & Hn); simpl in *.
  - apply list_elem_of_singleton in Hin. subst c. simpl in *.
    destruct (same_request ctx _) eqn:E; [reflexivity|].
    apply not_true_iff_false in E. exfalso. apply E, same_request_true. auto.
  - destruct (same_request ctx _) eqn:E; [reflexivity|].
    apply elem_of_cons in Hin. destruct Hin as [->|Hin].
    + apply not_true_iff_false in E. exfalso. apply E, same_request_true. auto.
    + apply IH. exists c. auto.
Qed.

Lemma checkRecursiveResolve_passes ctx this h :
  ~ recursive_request ctx this ->
  checkRecursiveResolve ctx this h = (Ret tt, h).
Proof.
  induction this as [a r sl t n|a r p sl t n IH] using Context_chain_ind;
    intros Hno; simpl.
  - destruct (same_request ctx _) eqn:E; [|reflexivity].
    exfalso. apply Hno. apply same_request_true in E.
    eexists. split; [apply list_elem_of_here|exact E].
  - destruct (same_request ctx _) eqn:E.
    + exfalso. apply Hno. apply same_request_true in E.
      eexists. split; [apply list_elem_of_here|exact E].
    + apply IH. intros (c & Hin & Hc). apply Hno. exists c.
      split; [apply list_elem_of_further, Hin|exact Hc].
Qed.

Lemma recursive_request_dec ctx this :
  recursive_request ctx this \/ ~ recursive_request ctx this.
Proof.
  unfold recursive_request.
  induction (ctx_chain this) as [|c l IH].
  - right. intros (c & Hin & _). inversion Hin.
  - destruct (decide (_interfaceType c = _interfaceType ctx /\ _name c = _name ctx))
      as [Hc|Hc].
    + left. exists c. split; [apply list_elem_of_here|exact Hc].
    + destruct IH as [(c' & Hin & Hc')|IH].
      * left. exists c'. split; [apply list_elem_of_further, Hin|exact Hc'].
      * right. intros (c' & Hin & Hc'). apply elem_of_cons in Hin.
        destruct Hin as [->|Hin]; [contradiction|]. apply IH. eauto.
Qed.

Lemma resolve_eq exec rounds this iface named h :
  resolve exec rounds this iface named h =
    let ctx := mkContext (next h) (_root this) (Some this) (_sl this) iface named in
    (checkRecursiveResolve ctx this;;
     ptr ← _resolve exec (_sl this) iface ctx;
     afterResolve exec rounds this;;
     mret ptr) (with_next S h).
Proof. reflexivity. Qed.


(** ** The locator chain *)

Lemma _resolve_tryResolve exec sl iface slc h :
  _resolve exec sl iface slc h =
    match _tryResolve exec sl iface slc h with
    | (Ret None, h') => unable_to_resolve slc h'
    | r => r
    end.
Proof.
  revert h. induction sl as [a c|a c p IH]; intros h;
    rewrite _resolve_step, _tryResolve_step; simpl;
    destruct (binding_at h a iface (_name slc)) as [b|]; try reflexivity;
    try apply IH;
    destruct (binding_get exec b slc h) as [[[o|]|e|r] h']; try reflexivity; apply IH.
Qed.

Lemma _resolve_not_null exec sl iface slc h :
  fst (_resolve exec sl iface slc h) <> Ret None.
Proof.
  revert h. induction sl as [a c|a c p IH]; intros h; rewrite _resolve_step; simpl;
    destruct (binding_at h a iface (_name slc)) as [b|]; try discriminate; try apply IH;
    destruct (binding_get exec b slc h) as [[[o|]|e|r] h']; try discriminate; apply IH.
Qed.

Lemma _resolve_unbound exec sl iface slc h :
  (forall a, a ∈ sl_chain sl -> binding_at h a iface (_name slc) = None) ->
  _resolve exec sl iface slc h = unable_to_resolve slc h.
Proof.
  induction sl as [a c|a c p IH]; intros Hnone; rewrite _resolve_step; simpl.
  - rewrite (Hnone a); [reflexivity|apply list_elem_of_here].
  - rewrite (Hnone a); [|apply list_elem_of_here].
    apply IH. intros a' Hin. apply Hnone, list_elem_of_further, Hin.
Qed.

Lemma _tryResolve_unbound exec sl iface slc h :
  (forall a, a ∈ sl_chain sl -> binding_at h a iface (_name slc) = None) ->
  _tryResolve exec sl iface slc h = (Ret None, h).
Proof.
  induction sl as [a c|a c p IH]; intros Hnone; rewrite _tryResolve_step; simpl.
  - rewrite (Hnone a); [reflexivity|apply list_elem_of_here].
  - rewrite (Hnone a); [|apply list_elem_of_here].
    apply IH. intros a' Hin. apply Hnone, list_elem_of_further, Hin.
Qed.


(** ** Registration *)


Lemma bind_eq_fresh sl iface named h :
  binding_at h (sl_addr sl) iface named = None ->
  exists h', bind sl iface named h = (Ret (next h), h').
Proof.
  intros Hb. unfold bind. rewrite bind_eq, getTypedServiceLocator_eq. simpl.
  rewrite bind_eq. simpl.
  assert (Hcan : typed_canResolve (default [] (typed_locator_at h (sl_addr sl) iface)) named
                 = false).
  { apply not_true_iff_false. rewrite typed_canResolve_true.
    apply binding_at_None_cases in Hb as [Hn|(nsl & Hn & Hf)]; rewrite Hn; simpl.
    - intros [? ?]. discriminate.
    - rewrite Hf. intros [? ?]. discriminate. }
  rewrite Hcan. eexists. reflexivity.
Qed.

Lemma bind_registers sl iface named h :
  is_Some (locators h !! sl_addr sl) ->
  binding_at h (sl_addr sl) iface named = None ->
  binding_at (snd (bind sl iface named h)) (sl_addr sl) iface named = Some (next h).
Proof.
  intros HL Hb. unfold bind. msimpl.
  assert (Hfind : smap.find named (default [] (typed_locator_at h (sl_addr sl) iface)) = None).
  { apply binding_at_None_cases in Hb as [Hn|(nsl & Hn & Hf)]; rewrite Hn; [reflexivity|exact Hf]. }
  assert (Hcan : typed_canResolve (default [] (typed_locator_at h (sl_addr sl) iface)) named
                 = false).
  { apply not_true_iff_false. rewrite typed_canResolve_true, Hfind. intros [? ?]. discriminate. }
  rewrite Hcan. msimpl. cbn [snd].
  unfold binding_at. rewrite typed_locator_at_put, decide_True.
  - simpl. apply smap_find_insert, Hfind.
  - split; [reflexivity|]. split; [reflexivity|].
    apply (locators_put_is_Some sl iface _ h), HL.
Qed.


(** ** Scoping *)

Lemma nearest_binding_None h sl iface name :
  nearest_binding h sl iface name = None <->
  forall a, a ∈ sl_chain sl -> binding_at h a iface name = None.
Proof.
  induction sl as [a c|a c p IH]; simpl.
  - destruct (binding_at h a iface name) as [b|] eqn:E; split; try discriminate.
    + intros H. rewrite <- E. apply H, list_elem_of_here.
    + intros _ a0 Hin. apply list_elem_of_singleton in Hin as ->. exact E.
    + reflexivity.
  - destruct (binding_at h a iface name) as [b|] eqn:E; split; try discriminate.
    + intros H. rewrite <- E. apply H, list_elem_of_here.
    + intros Hn a0 Hin. apply elem_of_cons in Hin as [->|Hin]; [exact E|].
      apply IH; assumption.
    + intros H. apply IH. intros a0 Hin. apply H, list_elem_of_further, Hin.
Qed.

Lemma _resolve_nearest exec sl iface slc h b o h' :
  nearest_binding h sl iface (_name slc) = Some b ->
  binding_get exec b slc h = (Ret (Some o), h') ->
  _resolve exec sl iface slc h = (Ret (Some o), h').
Proof.
  induction sl as [a c|a c p IH]; intros Hn Hget; rewrite _resolve_step; cbv zeta;
    simpl sl_addr; simpl in Hn.
  - destruct (binding_at h a iface (_name slc)) as [b0|]; [|discriminate].
    injection Hn as ->. rewrite Hget. reflexivity.
  - destruct (binding_at h a iface (_name slc)) as [b0|].
    + injection Hn as ->. rewrite Hget. reflexivity.
    + apply IH; assumption.
Qed.

Lemma nearest_binding_with_next f h sl iface name :
  nearest_binding (with_next f h) sl iface name = nearest_binding h sl iface name.
Proof.
  induction sl as [a c|a c p IH]; simpl;
    change (binding_at (with_next f h) a iface name) with (binding_at h a iface name);
    destruct (binding_at h a iface name); auto.
Qed.



(** ** [tryResolve] against [resolve] *)



(** ** [canResolve] *)

(** A child with a typed locator for the capability answers from its own
    name map alone, whatever its parent binds. *)
Lemma _canResolve_shadowed a c parent iface slc h nsl :
  typed_locator_at h a iface = Some nsl ->
  smap.find (_name slc) nsl = None ->
  _canResolve (ChildLocator a c parent) iface slc h = (Ret false, h).
Proof.
  intros Hn Hf. rewrite _canResolve_step. simpl. rewrite Hn.
  unfold typed_canResolve. rewrite Hf. reflexivity.
Qed.

(** C6, the code at the failing input: the parent binds [ITest] unnamed and
    the child binds [ITest] under another name; asked through the child,
    [canResolve] answers [false], having done no more than allocate its
    context, although the parent holds the binding and [resolve] through the
    same child returns its instance. *)
Theorem canResolve_stops_at_typed_locator :
  let h := Scenario.shadowed_type_heap in
  let child := Scenario.shadowed_type_child in
  binding_at h (sl_addr Scenario.root) "ITest" "" = Some 2
  /\ canResolve (persistent_Context child) "ITest" "" h = (Ret false, with_next S h)
  /\ fst (resolve (run 1) 1 (persistent_Context child) "ITest" "" h) = Ret (Some 100).
Proof. vm_compute. auto. Qed.

(** ** Heaps along a resolution *)

Lemma binding_le_refl bd : binding_le bd bd.
Proof. unfold binding_le. auto. Qed.

Lemma binding_le_trans bd1 bd2 bd3 :
  binding_le bd1 bd2 -> binding_le bd2 bd3 -> binding_le bd1 bd3.
Proof.
  intros (Hi & Hc & He & H12) (Hi' & Hc' & He' & H23).
  unfold binding_le. repeat split; try congruence.
  destruct H12 as [->|[Hs Hk]]; [exact H23|].
  destruct H23 as [->|[Hs' _]]; [auto|congruence].
Qed.

Lemma evolves_refl h : evolves h h.
Proof.
  split; auto.
  - intros b bd Hb. exists bd. split; [exact Hb|apply binding_le_refl].
  - intros r l fns' Hl. right. exists fns'. auto.
Qed.

Lemma evolves_trans h1 h2 h3 : evolves h1 h2 -> evolves h2 h3 -> evolves h1 h3.
Proof.
  intros H12 H23. split.
  - etrans; [apply H12|apply H23].
  - rewrite (ev_locators _ _ H23). apply H12.
  - intros b bd Hb.
    destruct (ev_bindings _ _ H12 _ _ Hb) as (bd2 & Hb2 & Hle2).
    destruct (ev_bindings _ _ H23 _ _ Hb2) as (bd3 & Hb3 & Hle3).
    exists bd3. split; [exact Hb3|eapply binding_le_trans; eassumption].
  - intros r l fns3 Hl.
    destruct (ev_lists _ _ H23 _ _ _ Hl) as [Hfresh|(fns2 & Hl2 & Hp2)].
    + left. etrans; [apply H12|exact Hfresh].
    + destruct (ev_lists _ _ H12 _ _ _ Hl2) as [Hfresh|(fns1 & Hl1 & Hp1)]; [auto|].
      right. exists fns1. split; [exact Hl1|etrans; eassumption].
  - intros Ha. apply H23, H12, Ha.
  - etrans; [apply H12|apply H23].
Qed.

Lemma preserves_ret {A} (a : A) : preserves (mret a).
Proof. intros h. apply evolves_refl. Qed.

Lemma preserves_throw {A} e : preserves (throw (A:=A) e).
Proof. intros h. apply evolves_refl. Qed.

Lemma preserves_stop {A} r : preserves (stop (A:=A) r).
Proof. intros h. apply evolves_refl. Qed.

Lemma preserves_gets {A} (f : heap -> A) : preserves (gets f).
Proof. intros h. apply evolves_refl. Qed.

Lemma preserves_bind {A B} (m : M A) (f : A -> M B) :
  preserves m -> (forall a, preserves (f a)) -> preserves (m ≫= f).
Proof.
  intros Hm Hf h. rewrite bind_eq. specialize (Hm h).
  destruct (m h) as [[a|e|r] h1]; simpl in *; try exact Hm.
  eapply evolves_trans; [exact Hm|apply Hf].
Qed.

Lemma preserves_modify (f : heap -> heap) :
  (forall h, evolves h (f h)) -> preserves (modify f).
Proof. intros Hf h. apply Hf. Qed.

Lemma preserves_mapM {A B} (f : A -> M B) l :
  (forall a, preserves (f a)) -> preserves (mapM f l).
Proof.
  intros Hf. induction l as [|a l IH]; simpl.
  - apply preserves_ret.
  - apply preserves_bind; [apply Hf|intros b].
    apply preserves_bind; [apply IH|intros bs]. apply preserves_ret.
Qed.

Lemma preserves_alloc : preserves alloc.
Proof.
  intros h. simpl. split; simpl; auto.
  - intros b bd Hb. exists bd. split; [exact Hb|apply binding_le_refl].
  - intros r l fns' Hl. right. exists fns'. auto.
  - intros Ha r l fns Hl. specialize (Ha r l fns Hl). simpl. lia.
Qed.

Lemma evolves_with_concreteType f h : evolves h (with_concreteType f h).
Proof.
  split; simpl; auto.
  - intros b bd Hb. exists bd. split; [exact Hb|apply binding_le_refl].
  - intros r l fns' Hl. right. exists fns'. auto.
Qed.

Lemma evolves_with_created b h : evolves h (with_created (fun l => l ++ [b]) h).
Proof.
  split; simpl; auto.
  - intros b0 bd Hb. exists bd. split; [exact Hb|apply binding_le_refl].
  - intros r l fns' Hl. right. exists fns'. auto.
  - apply prefix_app_r. reflexivity.
Qed.

Lemma evolves_delete_list r h : evolves h (with_fnAfterResolveList (delete r) h).
Proof.
  split; simpl; auto.
  - intros b bd Hb. exists bd. split; [exact Hb|apply binding_le_refl].
  - intros r0 l fns' Hl. right. exists fns'. split; [|reflexivity].
    apply lookup_delete_Some in Hl. apply Hl.
  - intros Ha r0 l fns Hl. simpl in *. apply lookup_delete_Some in Hl.
    eapply Ha. apply Hl.
Qed.

Lemma evolves_store_singleton h h1 b bd v :
  evolves h h1 ->
  bindings h !! b = Some bd ->
  _fnGet bd = fn_singleton ->
  evolves h (store_singleton b v h1).
Proof.
  intros Hev Hb Hs. split; simpl; try apply Hev.
  intros b0 bd0 Hb0.
  destruct (ev_bindings _ _ Hev _ _ Hb0) as (bd1 & Hb1 & Hle).
  destruct (decide (b0 = b)) as [->|Hne].
  - rewrite lookup_alter_eq, Hb1. simpl. eexists. split; [reflexivity|].
    assert (bd0 = bd) by congruence. subst bd0.
    destruct Hle as (Hi & Hc & He & _). unfold binding_le. simpl.
    repeat (split; [assumption|]). right. auto.
  - rewrite lookup_alter_ne by congruence. eauto.
Qed.

Lemma preserves_setConcreteType c t : preserves (setConcreteType c t).
Proof.
  unfold setConcreteType. apply preserves_bind; [apply preserves_gets|intros [t0|]].
  - apply preserves_throw.
  - apply preserves_modify. intros h. apply evolves_with_concreteType.
Qed.

Lemma preserves_afterResolve_push c fn : preserves (afterResolve_push c fn).
Proof.
  intros h. unfold afterResolve_push. rewrite bind_eq. simpl.
  destruct (fnAfterResolveList h !! _root c) as [[l fns]|] eqn:E; simpl.
  - split; simpl; auto.
    + intros b bd Hb. exists bd. split; [exact Hb|apply binding_le_refl].
    + intros r l0 fns' Hl. right.
      destruct (decide (r = _root c)) as [->|Hne].
      * rewrite lookup_insert_eq in Hl. injection Hl as <- <-.
        exists fns. split; [exact E|apply prefix_app_r; reflexivity].
      * rewrite lookup_insert_ne in Hl by congruence. exists fns'. auto.
    + intros Ha r l0 fns0 Hl. simpl in *.
      destruct (decide (r = _root c)) as [->|Hne].
      * rewrite lookup_insert_eq in Hl. injection Hl as <- <-. eapply Ha, E.
      * rewrite lookup_insert_ne in Hl by congruence. eapply Ha, Hl.
  - split; simpl; auto.
    + intros b bd Hb. exists bd. split; [exact Hb|apply binding_le_refl].
    + intros r l0 fns' Hl.
      destruct (decide (r = _root c)) as [->|Hne].
      * rewrite lookup_insert_eq in Hl. injection Hl as <- <-. left. reflexivity.
      * rewrite lookup_insert_ne in Hl by congruence. right. exists fns'. auto.
    + intros Ha r l0 fns0 Hl. simpl in *.
      destruct (decide (r = _root c)) as [->|Hne].
      * rewrite lookup_insert_eq in Hl. injection Hl as <- <-. lia.
      * rewrite lookup_insert_ne in Hl by congruence. specialize (Ha _ _ _ Hl). lia.
Qed.

Lemma preserves_new_Context parent t n : preserves (new_Context parent t n).
Proof.
  unfold new_Context. apply preserves_bind; [apply preserves_alloc|intros a].
  apply preserves_ret.
Qed.

Lemma preserves_new_root_Context sl t n : preserves (new_root_Context sl t n).
Proof.
  unfold new_root_Context. apply preserves_bind; [apply preserves_alloc|intros a].
  apply preserves_ret.
Qed.

Lemma preserves_checkRecursiveResolve ctx this : preserves (checkRecursiveResolve ctx this).
Proof.
  intros h. destruct (recursive_request_dec ctx this) as [Hc|Hc].
  - rewrite (checkRecursiveResolve_raises _ _ _ Hc). apply evolves_refl.
  - rewrite (checkRecursiveResolve_passes _ _ _ Hc). apply evolves_refl.
Qed.

Lemma preserves_unable_to_resolve {A} slc : preserves (unable_to_resolve (A:=A) slc).
Proof. intros h. apply evolves_refl. Qed.

Section EnginePreserves.
Variable exec : Prog -> M sptr.
Variable rounds : nat.
Hypothesis exec_preserves : forall p, preserves (exec p).

Local Ltac step_bind := apply preserves_bind; [|intros ?x].

Lemma preserves_call_fnCreate b slc : preserves (call_fnCreate exec b slc).
Proof.
  unfold call_fnCreate. step_bind; [apply preserves_gets|].
  destruct (_ ≫= _fnCreate) as [f|]; [|apply preserves_throw].
  step_bind; [|apply exec_preserves].
  apply preserves_modify. intros h. apply evolves_with_created.
Qed.

Lemma preserves_binding_get b slc : preserves (binding_get exec b slc).
Proof.
  intros h. unfold binding_get. rewrite bind_eq. simpl.
  destruct (bindings h !! b) as [bd|] eqn:Hb; [|apply evolves_refl].
  destruct (_fnGet bd) eqn:Hg; try apply evolves_refl.
  - apply preserves_call_fnCreate.
  - rewrite bind_eq. pose proof (preserves_call_fnCreate b slc h) as Hc.
    destruct (call_fnCreate exec b slc h) as [[v|e|r] h1]; simpl in *; try exact Hc.
    eapply evolves_store_singleton; eassumption.
Qed.

Lemma preserves_typed_tryResolve nsl name slc :
  preserves (typed_tryResolve exec nsl name slc).
Proof.
  unfold typed_tryResolve. destruct (smap.find name nsl);
    [apply preserves_binding_get|apply preserves_ret].
Qed.

Lemma preserves__resolve sl iface slc : preserves (_resolve exec sl iface slc).
Proof.
  induction sl as [a c|a c p IH]; simpl.
  - step_bind; [apply preserves_gets|].
    destruct x as [nsl|]; [|apply preserves_unable_to_resolve].
    step_bind; [apply preserves_typed_tryResolve|].
    destruct x; [apply preserves_ret|apply preserves_unable_to_resolve].
  - step_bind; [apply preserves_gets|].
    destruct x as [nsl|]; [|apply IH].
    step_bind; [apply preserves_typed_tryResolve|].
    destruct x; [apply preserves_ret|apply IH].
Qed.

Lemma preserves__tryResolve sl iface slc : preserves (_tryResolve exec sl iface slc).
Proof.
  induction sl as [a c|a c p IH]; simpl.
  - step_bind; [apply preserves_gets|].
    destruct x as [nsl|]; [|apply preserves_ret].
    step_bind; [apply preserves_typed_tryResolve|].
    destruct x; apply preserves_ret.
  - step_bind; [apply preserves_gets|].
    destruct x as [nsl|]; [|apply IH].
    step_bind; [apply preserves_typed_tryResolve|].
    destruct x; [apply preserves_ret|apply IH].
Qed.

Lemma preserves__canResolve sl iface slc : preserves (_canResolve sl iface slc).
Proof.
  induction sl as [a c|a c p IH]; simpl.
  - step_bind; [apply preserves_gets|]. destruct x; apply preserves_ret.
  - step_bind; [apply preserves_gets|]. destruct x; [apply preserves_ret|apply IH].
Qed.

Lemma preserves__visitAll {A} sl iface (fnVisit : addr -> M A) :
  (forall b, preserves (fnVisit b)) -> preserves (_visitAll sl iface fnVisit).
Proof.
  intros Hf. induction sl as [a c|a c p IH]; simpl.
  - step_bind; [apply preserves_gets|].
    step_bind; [|apply preserves_ret].
    destruct x; [apply preserves_mapM, Hf|apply preserves_ret].
  - step_bind; [apply preserves_gets|].
    step_bind; [destruct x; [apply preserves_mapM, Hf|apply preserves_ret]|].
    step_bind; [apply IH|apply preserves_ret].
Qed.

Lemma preserves_afterResolve_loop n this l i :
  preserves (afterResolve_loop exec n this l i).
Proof.
  revert i. induction n as [|n IH]; intros i; simpl.
  - step_bind; [apply preserves_gets|].
    destruct x as [[l' fns]|]; [|apply preserves_stop].
    destruct (bool_decide (l' = l)); [|apply preserves_stop].
    destruct (fns !! i); [apply preserves_stop|apply preserves_ret].
  - step_bind; [apply preserves_gets|].
    destruct x as [[l' fns]|]; [|apply preserves_stop].
    destruct (bool_decide (l' = l)); [|apply preserves_stop].
    destruct (fns !! i); [|apply preserves_ret].
    step_bind; [apply preserves_new_root_Context|].
    step_bind; [apply exec_preserves|apply IH].
Qed.

Lemma preserves_afterResolve this : preserves (afterResolve exec rounds this).
Proof.
  unfold afterResolve. destruct (bool_decide _); [|apply preserves_ret].
  step_bind; [apply preserves_gets|].
  destruct x as [[l fns]|]; [|apply preserves_ret].
  step_bind; [apply preserves_afterResolve_loop|].
  apply preserves_modify. intros h. apply evolves_delete_list.
Qed.

Lemma preserves_resolve this iface named :
  preserves (resolve exec rounds this iface named).
Proof.
  unfold resolve. step_bind; [apply preserves_new_Context|].
  step_bind; [apply preserves_checkRecursiveResolve|].
  step_bind; [apply preserves__resolve|].
  step_bind; [apply preserves_afterResolve|apply preserves_ret].
Qed.

Lemma preserves_tryResolve this iface named :
  preserves (tryResolve exec rounds this iface named).
Proof.
  unfold tryResolve. step_bind; [apply preserves_new_Context|].
  step_bind; [apply preserves_checkRecursiveResolve|].
  step_bind; [apply preserves__tryResolve|].
  step_bind; [apply preserves_afterResolve|apply preserves_ret].
Qed.

Lemma preserves_canResolve this iface named :
  preserves (canResolve this iface named).
Proof.
  unfold canResolve. step_bind; [apply preserves_new_Context|].
  apply preserves__canResolve.
Qed.

Lemma preserves_resolveAll_visit this iface b :
  preserves (resolveAll_visit exec this iface b).
Proof.
  unfold resolveAll_visit. step_bind; [apply preserves_new_Context|].
  step_bind; [apply preserves_checkRecursiveResolve|apply preserves_binding_get].
Qed.

Lemma preserves_resolveAll this iface : preserves (resolveAll exec rounds this iface).
Proof.
  unfold resolveAll.
  step_bind; [apply preserves__visitAll, preserves_resolveAll_visit|].
  step_bind; [apply preserves_afterResolve|apply preserves_ret].
Qed.

Lemma preserves_provider this iface name :
  preserves (provider exec rounds this iface name).
Proof.
  unfold provider. step_bind; [apply preserves_new_root_Context|].
  step_bind; [apply preserves__resolve|].
  step_bind; [apply preserves_afterResolve|apply preserves_ret].
Qed.

Lemma preserves_tryProvider this iface name :
  preserves (tryProvider exec rounds this iface name).
Proof.
  unfold tryProvider. step_bind; [apply preserves_new_root_Context|].
  step_bind; [apply preserves__tryResolve|].
  step_bind; [apply preserves_afterResolve|apply preserves_ret].
Qed.

Lemma preserves_interp p : preserves (interp exec rounds p).
Proof.
  induction p as [v|e|k IH|c i n k IH|c i n k IH|c i n k IH|c i k IH
                 |c fn IHfn k IH|c t k IH|c i n k IH|c i n k IH]; simpl.
  - apply preserves_ret.
  - apply preserves_throw.
  - step_bind; [apply preserves_alloc|apply IH].
  - step_bind; [apply preserves_resolve|apply IH].
  - step_bind; [apply preserves_tryResolve|apply IH].
  - step_bind; [apply preserves_canResolve|apply IH].
  - step_bind; [apply preserves_resolveAll|apply IH].
  - step_bind; [apply preserves_afterResolve_push|apply IH].
  - step_bind; [apply preserves_setConcreteType|apply IH].
  - step_bind; [apply preserves_provider|apply IH].
  - step_bind; [apply preserves_tryProvider|apply IH].
Qed.
End EnginePreserves.

Lemma preserves_run fuel p : preserves (run fuel p).
Proof.
  revert p. induction fuel as [|fuel IH]; intros p; simpl.
  - apply preserves_stop.
  - apply preserves_interp, IH.
Qed.

(** ** Singletons *)

Lemma binding_get_cached exec b bd slc h :
  bindings h !! b = Some bd -> _fnGet bd = fn_cached ->
  binding_get exec b slc h = (Ret (_singleton bd), h).
Proof.
  intros Hb Hg. unfold binding_get. rewrite bind_eq. simpl. rewrite Hb, Hg. reflexivity.
Qed.

Lemma binding_get_singleton exec b bd slc h :
  bindings h !! b = Some bd -> _fnGet bd = fn_singleton ->
  binding_get exec b slc h =
    (v ← call_fnCreate exec b slc; modify (store_singleton b v);; mret v) h.
Proof.
  intros Hb Hg. unfold binding_get. rewrite bind_eq. simpl. rewrite Hb, Hg. reflexivity.
Qed.

Lemma call_fnCreate_eq exec b bd f slc h :
  bindings h !! b = Some bd -> _fnCreate bd = Some f ->
  call_fnCreate exec b slc h = exec (f slc) (with_created (fun l => l ++ [b]) h).
Proof.
  intros Hb Hf. unfold call_fnCreate. rewrite bind_eq. simpl. rewrite Hb. simpl.
  rewrite Hf. reflexivity.
Qed.

Lemma evolves_cached h h' b bd :
  evolves h h' -> bindings h !! b = Some bd -> _fnGet bd = fn_cached ->
  bindings h' !! b = Some bd.
Proof.
  intros Hev Hb Hg. destruct (ev_bindings _ _ Hev _ _ Hb) as (bd' & Hb' & Hle).
  destruct Hle as (_ & _ & _ & [->|[Hs _]]); [exact Hb'|congruence].
Qed.


(** ** Eager bindings *)

Lemma getContext_eq exec sl h :
  getContext exec sl h =
    match eager_of h sl with
    | [] => (Ret (persistent_Context sl), h)
    | eager =>
        (mapM (fun eagerBinding => eagerBind exec eagerBinding (persistent_Context sl)) eager;;
         modify (clear_eagerBindings sl);;
         mret (persistent_Context sl)) h
    end.
Proof.
  unfold getContext, eager_of. rewrite bind_eq. unfold gets. cbv beta iota.
  destruct (default [] (_eagerBindings <$> locators h !! sl_addr sl)) as [|b q];
    [reflexivity|].
  rewrite !bind_eq.
  destruct (mapM _ (b :: q) h) as [[vs|e|r] h1]; reflexivity.
Qed.



Lemma created_bind sl iface named h : created (snd (bind sl iface named h)) = created h.
Proof.
  unfold bind. rewrite bind_eq, getTypedServiceLocator_eq. simpl. rewrite bind_eq. simpl.
  destruct (typed_canResolve _ named); reflexivity.
Qed.


(** ** Enumeration *)

Lemma mapM_app {A B} (f : A -> M B) l1 l2 h :
  mapM f (l1 ++ l2) h = (x ← mapM f l1; y ← mapM f l2; mret (x ++ y)) h.
Proof.
  revert h. induction l1 as [|a l1 IH]; intros h; simpl.
  - msimpl. destruct (mapM f l2 h) as [[y|e|r] h1]; reflexivity.
  - msimpl. destruct (f a h) as [[b|e|r] h1]; try reflexivity.
    msimpl. rewrite IH. msimpl.
    destruct (mapM f l1 h1) as [[x|e|r] h2]; try reflexivity.
    msimpl. destruct (mapM f l2 h2) as [[y|e|r] h3]; reflexivity.
Qed.

Lemma evolves_typed_locator_at h h' a iface :
  evolves h h' -> typed_locator_at h' a iface = typed_locator_at h a iface.
Proof. intros Hev. unfold typed_locator_at. rewrite (ev_locators _ _ Hev). reflexivity. Qed.

Lemma evolves_enumerate h h' sl iface :
  evolves h h' -> enumerate h' sl iface = enumerate h sl iface.
Proof.
  intros Hev. unfold enumerate. induction (sl_chain sl) as [|a l IH]; simpl; [reflexivity|].
  rewrite (evolves_typed_locator_at _ _ _ _ Hev), IH. reflexivity.
Qed.

Lemma visit_here {A} (fnVisit : addr -> M A) (o : option TypedServiceLocator) h :
  (match o with
   | Some nsl => mapM fnVisit (smap.values nsl)
   | None => mret []
   end) h = mapM fnVisit (smap.values (default [] o)) h.
Proof. destruct o; reflexivity. Qed.

Lemma _visitAll_enumerate {A} sl iface (fnVisit : addr -> M A) h :
  (forall b, preserves (fnVisit b)) ->
  _visitAll sl iface fnVisit h = mapM fnVisit (enumerate h sl iface) h.
Proof.
  intros Hf. revert h. induction sl as [a c|a c p IH]; intros h.
  - unfold enumerate. simpl. rewrite app_nil_r. msimpl.
    simpl sl_addr.
    rewrite (visit_here fnVisit).
    destruct (mapM fnVisit _ h) as [[x|e|r] h1]; reflexivity.
  - unfold enumerate. simpl. fold (enumerate h p iface). rewrite mapM_app. msimpl.
    simpl sl_addr.
    rewrite (visit_here fnVisit).
    pose proof (preserves_mapM fnVisit
                  (smap.values (default [] (typed_locator_at h a iface))) Hf h) as Hev.
    destruct (mapM fnVisit _ h) as [[x|e|r] h1]; try reflexivity.
    simpl in Hev. msimpl. rewrite IH, (evolves_enumerate _ _ _ _ Hev).
    destruct (mapM fnVisit (enumerate h p iface) h1) as [[y|e|r] h2]; reflexivity.
Qed.

Lemma registry_sorted_put sl iface nsl h :
  registry_sorted h -> smap.ascending (smap.keys nsl) ->
  registry_sorted (put_typed_locator sl iface nsl h).
Proof.
  intros Hs Hn a0 iface0 nsl0. rewrite typed_locator_at_put.
  destruct (decide _); [intros [= <-]; exact Hn|apply Hs].
Qed.

Lemma registry_sorted_bind sl iface named h :
  registry_sorted h -> registry_sorted (snd (bind sl iface named h)).
Proof.
  intros Hs. unfold bind. msimpl.
  assert (Hn : smap.ascending (smap.keys (default [] (typed_locator_at h (sl_addr sl) iface)))).
  { destruct (typed_locator_at h (sl_addr sl) iface) as [nsl|] eqn:E; simpl;
      [eapply Hs, E|exact I]. }
  pose proof (registry_sorted_put sl iface _ h Hs Hn) as Hs1.
  destruct (typed_canResolve _ named); [exact Hs1|].
  msimpl. cbn [snd].
  apply (registry_sorted_put sl iface); [|apply smap_insert_ascending, Hn].
  intros a0 iface0 nsl0 E. eapply Hs1. exact E.
Qed.

Lemma registry_sorted_empty : registry_sorted empty_heap.
Proof. intros a iface nsl Hl. vm_compute in Hl. discriminate. Qed.

Lemma registry_sorted_evolves h h' :
  evolves h h' -> registry_sorted h -> registry_sorted h'.
Proof.
  intros Hev Hs a iface nsl. rewrite (evolves_typed_locator_at _ _ _ _ Hev). apply Hs.
Qed.

Lemma registry_sorted_new_locator a h :
  registry_sorted h -> registry_sorted (with_locators <[a := mkLocator ∅ []]> h).
Proof.
  intros Hs a0 iface nsl. unfold typed_locator_at. simpl.
  destruct (decide (a0 = a)) as [->|Hne].
  - rewrite lookup_insert_eq. simpl. rewrite lookup_empty. discriminate.
  - rewrite lookup_insert_ne by congruence. apply Hs.
Qed.

(** C5, amended.  [resolveAll] visits the bindings of the capability of every
    locator of the chain, closest scope first and then the ancestors, and
    within one locator in the ascending order of the binding names, which is
    the order of [_bindings] whatever the order of registration; every
    binding of the capability in the chain is visited, and [bind] keeps the
    name maps in that order. *)
Theorem resolveAll_order fuel this iface h :
  registry_sorted h ->
  resolveAll (run fuel) fuel this iface h =
    (all ← mapM (resolveAll_visit (run fuel) this iface) (enumerate h (_sl this) iface);
     afterResolve (run fuel) fuel this;; mret all) h
  /\ (forall a,
         a ∈ sl_chain (_sl this) ->
         smap.ascending (smap.keys (default [] (typed_locator_at h a iface))))
  /\ (forall a name b,
         a ∈ sl_chain (_sl this) ->
         binding_at h a iface name = Some b ->
         b ∈ enumerate h (_sl this) iface)
  /\ (forall sl0 iface0 named0, registry_sorted (snd (bind sl0 iface0 named0 h))).
Proof.
  intros Hs. split; [|split; [|split]].
  - unfold resolveAll. rewrite bind_eq, _visitAll_enumerate; [reflexivity|].
    intros b. apply preserves_resolveAll_visit, preserves_run.
  - intros a _. destruct (typed_locator_at h a iface) as [nsl|] eqn:E; simpl;
      [eapply Hs, E|exact I].
  - intros a name b Hin Hb. unfold enumerate.
    apply list_elem_of_In, in_flat_map. exists a. split; [apply list_elem_of_In, Hin|].
    apply list_elem_of_In.
    apply binding_at_Some_cases in Hb as (nsl & -> & Hfind). simpl.
    eapply smap_find_values, Hfind.
  - intros. apply registry_sorted_bind, Hs.
Qed.

(** ** The after-resolve list *)

Lemma run_callbacks_nil exec sl h : run_callbacks exec sl [] h = (Ret tt, h).
Proof. reflexivity. Qed.

Lemma run_callbacks_cons exec sl fn fns h :
  run_callbacks exec sl (fn :: fns) h =
    (ctx ← new_top_Context sl; exec (fn ctx);; run_callbacks exec sl fns) h.
Proof.
  unfold run_callbacks. cbn [mapM]. msimpl.
  destruct (new_top_Context sl h) as [[ctx|e|r] h1]; try reflexivity. msimpl.
  destruct (exec (fn ctx) h1) as [[v|e|r] h2]; try reflexivity. msimpl.
  destruct (mapM _ fns h2) as [[vs|e|r] h3]; reflexivity.
Qed.

Lemma afterResolve_loop_runs exec n this l i h h' :
  (forall p, preserves (exec p)) ->
  lists_allocated h ->
  afterResolve_loop exec n this l i h = (Ret tt, h') ->
  exists fns',
    fnAfterResolveList h' !! ctx_addr this = Some (l, fns')
    /\ (forall fns, fnAfterResolveList h !! ctx_addr this = Some (l, fns) ->
                    fns `prefix_of` fns')
    /\ run_callbacks exec (_sl this) (drop i fns') h = (Ret tt, h').
Proof.
  intros Hexec. revert i h. induction n as [|n IH]; intros i h Hal Hloop.
  - simpl in Hloop. revert Hloop. msimpl.
    destruct (fnAfterResolveList h !! ctx_addr this) as [[l' fns]|] eqn:E; [|discriminate].
    destruct (bool_decide_reflect (l' = l)) as [->|]; [|discriminate].
    destruct (fns !! i) eqn:Ei; [discriminate|]. intros [= <-].
    exists fns. split; [exact E|]. split; [intros fns0 [= <-]; reflexivity|].
    rewrite drop_ge; [reflexivity|]. apply lookup_ge_None, Ei.
  - pose proof (preserves_afterResolve_loop exec Hexec (S n) this l i h) as Hev.
    rewrite Hloop in Hev. simpl in Hev.
    simpl in Hloop. revert Hloop. msimpl.
    destruct (fnAfterResolveList h !! ctx_addr this) as [[l' fns]|] eqn:E; [|discriminate].
    destruct (bool_decide_reflect (l' = l)) as [->|]; [|discriminate].
    destruct (fns !! i) as [fn|] eqn:Ei.
    + unfold new_top_Context, new_root_Context. msimpl.
      set (ctx := mkContext (next h) _ _ _ _ _).
      pose proof (Hexec (fn ctx) (with_next S h)) as Hev1.
      destruct (exec (fn ctx) (with_next S h)) as [[v|e|r] h1] eqn:Ex; try discriminate.
      simpl in Hev1. intros Hloop.
      assert (Hal1 : lists_allocated h1).
      { apply (ev_allocated _ _ Hev1). intros r0 l0 fns0 Hl0. simpl in *.
        specialize (Hal _ _ _ Hl0). lia. }
      destruct (IH _ _ Hal1 Hloop) as (fns' & Hl' & Hpre & Hrun).
      exists fns'. split; [exact Hl'|].
      assert (Hp : fns `prefix_of` fns').
      { destruct (ev_lists _ _ Hev _ _ _ Hl') as [Hfresh|(fns0 & Hl0 & Hp0)].
        - specialize (Hal _ _ _ E). lia.
        - pose proof (eq_trans (eq_sym E) Hl0) as [= <-]. exact Hp0. }
      split; [intros fns0 [= <-]; exact Hp|].
      assert (Ei' : fns' !! i = Some fn).
      { destruct Hp as [k ->]. apply lookup_app_l_Some, Ei. }
      rewrite (drop_S _ _ _ Ei'), run_callbacks_cons.
      unfold new_top_Context, new_root_Context. msimpl. fold ctx. rewrite Ex. exact Hrun.
    + intros [= <-]. exists fns. split; [exact E|].
      split; [intros fns0 [= <-]; reflexivity|].
      rewrite drop_ge; [reflexivity|]. apply lookup_ge_None, Ei.
Qed.

Lemma afterResolve_not_root exec rounds this h :
  ctx_addr this <> _root this -> afterResolve exec rounds this h = (Ret tt, h).
Proof.
  intros Hne. unfold afterResolve.
  destruct (bool_decide_reflect (ctx_addr this = _root this)); [contradiction|reflexivity].
Qed.

Lemma afterResolve_root exec rounds this h h' :
  (forall p, preserves (exec p)) ->
  ctx_addr this = _root this ->
  lists_allocated h ->
  afterResolve exec rounds this h = (Ret tt, h') ->
  fnAfterResolveList h' !! ctx_addr this = None
  /\ match fnAfterResolveList h !! ctx_addr this with
     | None => h' = h
     | Some (l, fns) =>
         exists fns' h_end,
           fns `prefix_of` fns'
           /\ run_callbacks exec (_sl this) fns' h = (Ret tt, h_end)
           /\ fnAfterResolveList h_end !! ctx_addr this = Some (l, fns')
           /\ h' = with_fnAfterResolveList (delete (ctx_addr this)) h_end
     end.
Proof.
  intros Hexec Hroot Hal. unfold afterResolve.
  destruct (bool_decide_reflect (ctx_addr this = _root this)); [|contradiction].
  msimpl.
  destruct (fnAfterResolveList h !! ctx_addr this) as [[l fns]|] eqn:E.
  - msimpl.
    destruct (afterResolve_loop exec rounds this l 0 h) as [[[]|e0|r] h_end] eqn:Hloop;
      try discriminate.
    msimpl. intros [= <-]. split; [apply lookup_delete_eq|].
    destruct (afterResolve_loop_runs _ _ _ _ _ _ _ Hexec Hal Hloop)
      as (fns' & Hl' & Hpre & Hrun).
    exists fns', h_end. rewrite drop_0 in Hrun. auto.
  - intros [= <-]. auto.
Qed.


(** ** Checks that compute *)

Lemma ascendingb_sound ks : ascendingb ks = true -> smap.ascending ks.
Proof.
  induction ks as [|k ks IH]; simpl; [trivial|].
  intros H. apply andb_true_iff in H as [Hhd Htl]. split; [|apply IH, Htl].
  destruct ks as [|k' ks']; [trivial|].
  destruct (String.compare k k'); [discriminate|reflexivity|discriminate].
Qed.

Lemma registry_sortedb_sound h : registry_sortedb h = true -> registry_sorted h.
Proof.
  unfold registry_sortedb, registry_sorted, typed_locator_at.
  intros H a iface nsl Hl.
  destruct (locators h !! a) as [L|] eqn:HL; simpl in Hl; [|discriminate].
  rewrite forallb_forall in H.
  assert (HaL : In (a, L) (map_to_list (locators h)))
    by (apply list_elem_of_In, elem_of_map_to_list, HL).
  specialize (H (a, L) HaL). simpl in H.
  rewrite forallb_forall in H.
  apply ascendingb_sound. apply (H (iface, nsl)).
  apply list_elem_of_In, elem_of_map_to_list, Hl.
Qed.

Lemma lists_allocated_empty h : fnAfterResolveList h = ∅ -> lists_allocated h.
Proof. intros E r l fns Hl. rewrite E, lookup_empty in Hl. discriminate. Qed.

(** ** More fuel changes no result *)

Lemma fuel_le_refl {A} (m : M A) : fuel_le m m.
Proof. intros h _. reflexivity. Qed.

Lemma fuel_le_trans {A} (m1 m2 m3 : M A) :
  fuel_le m1 m2 -> fuel_le m2 m3 -> fuel_le m1 m3.
Proof.
  intros H12 H23 h Hne. rewrite <- (H12 h Hne). apply H23. rewrite (H12 h Hne). exact Hne.
Qed.

Lemma fuel_le_bind {A B} (m m' : M A) (f f' : A -> M B) :
  fuel_le m m' -> (forall a, fuel_le (f a) (f' a)) -> fuel_le (m ≫= f) (m' ≫= f').
Proof.
  intros Hm Hf h. rewrite !bind_eq. specialize (Hm h).
  destruct (m h) as [[a|e|r] h1]; simpl; intros Hne.
  - rewrite Hm by discriminate. apply Hf, Hne.
  - rewrite Hm by discriminate. reflexivity.
  - destruct r; [exfalso; apply Hne; reflexivity|].
    rewrite Hm by discriminate. reflexivity.
Qed.

Lemma fuel_le_mapM {A B} (f f' : A -> M B) l :
  (forall a, fuel_le (f a) (f' a)) -> fuel_le (mapM f l) (mapM f' l).
Proof.
  intros Hf. induction l as [|a l IH]; simpl; [apply fuel_le_refl|].
  apply fuel_le_bind; [apply Hf|intros b].
  apply fuel_le_bind; [apply IH|intros bs; apply fuel_le_refl].
Qed.

Section EngineFuel.
Variables exec exec' : Prog -> M sptr.
Variables rounds rounds' : nat.
Hypothesis exec_le : forall p, fuel_le (exec p) (exec' p).
Hypothesis rounds_le : rounds <= rounds'.

Local Ltac same := apply fuel_le_bind; [apply fuel_le_refl|intros ?x].
Local Ltac next_with H := apply fuel_le_bind; [apply H|intros ?x].

Lemma fuel_le_call_fnCreate b slc :
  fuel_le (call_fnCreate exec b slc) (call_fnCreate exec' b slc).
Proof.
  unfold call_fnCreate. same. destruct (_ ≫= _fnCreate); [|apply fuel_le_refl].
  same. apply exec_le.
Qed.

Lemma fuel_le_binding_get b slc :
  fuel_le (binding_get exec b slc) (binding_get exec' b slc).
Proof.
  unfold binding_get. same. destruct x as [bd|]; [|apply fuel_le_refl].
  destruct (_fnGet bd); try apply fuel_le_refl.
  - apply fuel_le_call_fnCreate.
  - next_with fuel_le_call_fnCreate. apply fuel_le_refl.
Qed.

Lemma fuel_le_typed_tryResolve nsl name slc :
  fuel_le (typed_tryResolve exec nsl name slc) (typed_tryResolve exec' nsl name slc).
Proof.
  unfold typed_tryResolve. destruct (smap.find name nsl);
    [apply fuel_le_binding_get|apply fuel_le_refl].
Qed.

Lemma fuel_le__resolve sl iface slc :
  fuel_le (_resolve exec sl iface slc) (_resolve exec' sl iface slc).
Proof.
  induction sl as [a c|a c p IH]; simpl.
  - same. destruct x as [nsl|]; [|apply fuel_le_refl].
    next_with fuel_le_typed_tryResolve. apply fuel_le_refl.
  - same. destruct x as [nsl|]; [|apply IH].
    next_with fuel_le_typed_tryResolve. destruct x; [apply fuel_le_refl|apply IH].
Qed.

Lemma fuel_le__tryResolve sl iface slc :
  fuel_le (_tryResolve exec sl iface slc) (_tryResolve exec' sl iface slc).
Proof.
  induction sl as [a c|a c p IH]; simpl.
  - same. destruct x as [nsl|]; [|apply fuel_le_refl].
    next_with fuel_le_typed_tryResolve. apply fuel_le_refl.
  - same. destruct x as [nsl|]; [|apply IH].
    next_with fuel_le_typed_tryResolve. destruct x; [apply fuel_le_refl|apply IH].
Qed.

Lemma fuel_le__visitAll {A} sl iface (fnVisit fnVisit' : addr -> M A) :
  (forall b, fuel_le (fnVisit b) (fnVisit' b)) ->
  fuel_le (_visitAll sl iface fnVisit) (_visitAll sl iface fnVisit').
Proof.
  intros Hf. induction sl as [a c|a c p IH]; simpl.
  - same. apply fuel_le_bind; [|intros; apply fuel_le_refl].
    destruct x; [apply fuel_le_mapM, Hf|apply fuel_le_refl].
  - same. apply fuel_le_bind;
      [destruct x; [apply fuel_le_mapM, Hf|apply fuel_le_refl]|intros here].
    next_with IH. apply fuel_le_refl.
Qed.

Lemma fuel_le_afterResolve_loop n n' this l i :
  n <= n' ->
  fuel_le (afterResolve_loop exec n this l i) (afterResolve_loop exec' n' this l i).
Proof.
  revert n' i. induction n as [|n IH]; intros n' i Hle.
  - intros h. destruct n'; simpl; msimpl;
      destruct (fnAfterResolveList h !! ctx_addr this) as [[l' fns]|]; try reflexivity;
      destruct (bool_decide (l' = l)); try reflexivity;
      destruct (fns !! i); try reflexivity.
    intros Hne. exfalso. apply Hne. reflexivity.
  - destruct n' as [|n']; [lia|]. simpl. same.
    destruct x as [[l' fns]|]; [|apply fuel_le_refl].
    destruct (bool_decide (l' = l)); [|apply fuel_le_refl].
    destruct (fns !! i); [|apply fuel_le_refl].
    same. next_with exec_le. apply IH. lia.
Qed.

Lemma fuel_le_afterResolve this :
  fuel_le (afterResolve exec rounds this) (afterResolve exec' rounds' this).
Proof.
  unfold afterResolve. destruct (bool_decide _); [|apply fuel_le_refl].
  same. destruct x as [[l fns]|]; [|apply fuel_le_refl].
  apply fuel_le_bind; [apply fuel_le_afterResolve_loop, rounds_le|].
  intros; apply fuel_le_refl.
Qed.

Lemma fuel_le_resolve this iface named :
  fuel_le (resolve exec rounds this iface named) (resolve exec' rounds' this iface named).
Proof.
  unfold resolve. same. same. next_with fuel_le__resolve.
  next_with fuel_le_afterResolve. apply fuel_le_refl.
Qed.

Lemma fuel_le_tryResolve this iface named :
  fuel_le (tryResolve exec rounds this iface named)
    (tryResolve exec' rounds' this iface named).
Proof.
  unfold tryResolve. same. same. next_with fuel_le__tryResolve.
  next_with fuel_le_afterResolve. apply fuel_le_refl.
Qed.

Lemma fuel_le_resolveAll this iface :
  fuel_le (resolveAll exec rounds this iface) (resolveAll exec' rounds' this iface).
Proof.
  unfold resolveAll. apply fuel_le_bind.
  - apply fuel_le__visitAll. intros b. unfold resolveAll_visit. same. same.
    apply fuel_le_binding_get.
  - intros all. next_with fuel_le_afterResolve. apply fuel_le_refl.
Qed.

Lemma fuel_le_provider this iface name :
  fuel_le (provider exec rounds this iface name) (provider exec' rounds' this iface name).
Proof.
  unfold provider. same. next_with fuel_le__resolve.
  apply fuel_le_bind; [|intros; apply fuel_le_refl].
  unfold afterResolve. destruct (bool_decide _); [|apply fuel_le_refl].
  same. destruct x1 as [[l fns]|]; [|apply fuel_le_refl].
  apply fuel_le_bind; [apply fuel_le_afterResolve_loop, rounds_le|].
  intros; apply fuel_le_refl.
Qed.

Lemma fuel_le_tryProvider this iface name :
  fuel_le (tryProvider exec rounds this iface name)
    (tryProvider exec' rounds' this iface name).
Proof.
  unfold tryProvider. same. next_with fuel_le__tryResolve.
  apply fuel_le_bind; [|intros; apply fuel_le_refl].
  unfold afterResolve. destruct (bool_decide _); [|apply fuel_le_refl].
  same. destruct x1 as [[l fns]|]; [|apply fuel_le_refl].
  apply fuel_le_bind; [apply fuel_le_afterResolve_loop, rounds_le|].
  intros; apply fuel_le_refl.
Qed.

Lemma fuel_le_interp p : fuel_le (interp exec rounds p) (interp exec' rounds' p).
Proof.
  induction p as [v|e|k IH|c i n k IH|c i n k IH|c i n k IH|c i k IH
                 |c fn IHfn k IH|c t k IH|c i n k IH|c i n k IH]; simpl;
    try apply fuel_le_refl.
  - same. apply IH.
  - next_with fuel_le_resolve. apply IH.
  - next_with fuel_le_tryResolve. apply IH.
  - same. apply IH.
  - next_with fuel_le_resolveAll. apply IH.
  - same. apply IH.
  - same. apply IH.
  - next_with fuel_le_provider. apply IH.
  - next_with fuel_le_tryProvider. apply IH.
Qed.

Lemma fuel_le_getContext sl : fuel_le (getContext exec sl) (getContext exec' sl).
Proof.
  unfold getContext. same. apply fuel_le_bind; [|intros; apply fuel_le_refl].
  destruct x as [|b q]; [apply fuel_le_refl|].
  apply fuel_le_bind; [|intros; apply fuel_le_refl].
  apply fuel_le_mapM. intros b'. unfold eagerBind. same.
  destruct x as [bd|]; [|apply fuel_le_refl].
  same. next_with fuel_le_binding_get. apply fuel_le_refl.
Qed.
End EngineFuel.

Lemma fuel_le_run_S fuel p : fuel_le (run fuel p) (run (S fuel) p).
Proof.
  revert p. induction fuel as [|fuel IH]; intros p.
  - intros h Hne. exfalso. apply Hne. reflexivity.
  - change (fuel_le (interp (run fuel) fuel p) (interp (run (S fuel)) (S fuel) p)).
    apply fuel_le_interp; [exact IH|lia].
Qed.

Lemma fuel_le_run fuel fuel' p : fuel <= fuel' -> fuel_le (run fuel p) (run fuel' p).
Proof.
  induction 1 as [|fuel' _ IH]; [apply fuel_le_refl|].
  eapply fuel_le_trans; [exact IH|apply fuel_le_run_S].
Qed.

(** A result obtained with some fuel is the result with any larger fuel. *)
Lemma resolve_fuel fuel fuel' this iface named :
  fuel <= fuel' ->
  fuel_le (resolve (run fuel) fuel this iface named)
    (resolve (run fuel') fuel' this iface named).
Proof.
  intros Hle. apply fuel_le_resolve; [|exact Hle]. intros p. apply fuel_le_run, Hle.
Qed.

(** ** The theorems at work *)


(** [resolveAll] over [Scenario.named_only]: the constructor of the binding
    named [X] asks, softly, for the unnamed [ITest], which nobody binds, and
    the call raises. *)
Example resolveAll_named_only :
  fst (resolveAll (run 2) 2 (persistent_Context Scenario.root) "ITest"
         Scenario.named_only_heap)
  = Exc (RecursiveResolveException
           "Recursive resolve path = resolve<ITest>().to<TestC> -> resolve<ITest>()").
Proof. vm_compute. reflexivity. Qed.

(** "Nested locator": the first child resolves to its own instance, its
    sibling and the parent to the instance of the parent, and a capability
    bound nowhere is not resolved. *)
Example nested_locator_resolution :
  let h := Scenario.scoping_heap in
  let through sl iface := fst (resolve (run 1) 1 (persistent_Context sl) iface "" h) in
  through Scenario.child1 "ITest" = Ret (Some 200)
  /\ through Scenario.child2 "ITest" = Ret (Some 100)
  /\ through Scenario.root "ITest" = Ret (Some 100)
  /\ through Scenario.child1 "Missing"
     = Exc (UnableToResolveException
              "Unable to resolve <Missing>  resolve path = resolve<Missing>()").
Proof. vm_compute. auto. Qed.



(** The constructor of [ITest] named [a] resolves [ITest] named [b] and
    succeeds; the constructor of [ITest] named [loop] resolves itself, and
    the second construction never starts: the trace holds one entry. *)
Example reentrant_resolution :
  let h := Scenario.reentrant_heap in
  let this := persistent_Context Scenario.root in
  fst (resolve (run 3) 3 this "ITest" "a" h) = Ret (Some 8)
  /\ fst (resolve (run 3) 3 this "ITest" "loop" h)
     = Exc (RecursiveResolveException
              "Recursive resolve path = resolve<ITest>(loop).to<TestC> -> resolve<ITest>(loop)")
  /\ created (snd (resolve (run 3) 3 this "ITest" "loop" h)) = [4].
Proof. vm_compute. auto. Qed.


(** Two resolves of a singleton: one construction, one instance. *)
Example singleton_resolved_twice :
  let h := Scenario.singleton_heap in
  let this := persistent_Context Scenario.root in
  fst ((a ← resolve (run 1) 1 this "ITest" "";
        aa ← resolve (run 1) 1 this "ITest" "";
        mret (a, aa)) h) = Ret (Some 4, Some 4)
  /\ created (snd ((resolve (run 1) 1 this "ITest" "";;
                    resolve (run 1) 1 this "ITest" "") h)) = [2].
Proof. vm_compute. auto. Qed.


(** C5 as stated fails: with [B] registered before [A], [resolveAll] yields
    the instance of [A] first. *)
Lemma resolveAll_not_registration_order :
  ~ (forall n1 n2 v1 v2,
        n1 <> n2 ->
        fst ((sl ← create;
              b1 ← bind sl "ITest" n1;
              toInstance b1 v1;;
              b2 ← bind sl "ITest" n2;
              toInstance b2 v2;;
              this ← getContext (run 1) sl;
              resolveAll (run 1) 1 this "ITest") empty_heap) = Ret [v1; v2]).
Proof.
  intros H. specialize (H "B" "A" (Some 100) (Some 200)).
  assert (Hfalse : Ret (A:=list sptr) [Some 200; Some 100] = Ret [Some 100; Some 200]);
    [|discriminate Hfalse].
  apply H. discriminate.
Qed.

Lemma resolveAll_order_witness :
  let h := Scenario.order_heap in
  let this := persistent_Context Scenario.root in
  resolveAll (run 1) 1 this "ITest" h =
    (all ← mapM (resolveAll_visit (run 1) this "ITest") [3; 2];
     afterResolve (run 1) 1 this;; mret all) h
  /\ smap.keys (default [] (typed_locator_at h 0 "ITest")) = ["A"; "B"]
  /\ smap.ascending ["A"; "B"].
Proof.
  intros h this.
  destruct (resolveAll_order 1 this "ITest" h) as (Heq & Hasc & _).
  - apply registry_sortedb_sound. vm_compute. reflexivity.
  - split; [exact Heq|]. split; [reflexivity|].
    apply (Hasc 0). apply list_elem_of_here.
Defined.


(** The callback pushed during the loop is run by the same loop, on a
    context of its own, before [resolve] returns. *)
Example deferred_callbacks_run :
  let h := Scenario.deferred_heap in
  let this := persistent_Context Scenario.root in
  let h' := snd (resolve (run 2) 2 this "ITest" "" h) in
  concreteType h' !! 6 = Some "first"
  /\ concreteType h' !! 7 = Some "second"
  /\ fnAfterResolveList h' = ∅.
Proof. vm_compute. auto. Qed.

(** A callback that registers through the context it is given registers on
    the list of that context, its own root; the loop of the outer root does
    not reach that list. *)
Example callback_on_its_own_context :
  let h := Scenario.deferred_own_context_heap in
  let this := persistent_Context Scenario.root in
  let h' := snd (resolve (run 3) 3 this "ITest" "" h) in
  concreteType h' !! 6 = Some "first"
  /\ fnAfterResolveList h' !! ctx_addr this = None
  /\ (exists l fn, fnAfterResolveList h' !! 6 = Some (l, [fn]))
  /\ map_to_list (concreteType h') = [(6, "first"); (3, "TestA")].
Proof. vm_compute. repeat split; eauto. Qed.


(** The context handed to the parent is the one the child's binding has
    worked on: after a null instance from a [to<TImpl>(fn)] binding it
    carries a concrete type, and a parent bound through [to<TImpl>()] raises
    on setting its own. *)
Example null_instance_keeps_concrete_type :
  let h := Scenario.null_over_typed_heap in
  let this := persistent_Context Scenario.null_child_child in
  fst (resolve (run 2) 2 this "ITest" "" h)
  = Exc (BindingIssueException "Concrete type on Context already set")
  /\ fst (tryResolve (run 2) 2 this "ITest" "" h)
     = Exc (BindingIssueException "Concrete type on Context already set").
Proof. vm_compute. auto. Qed.



(** * Further properties *)

(** ** Registration and its frame *)

Lemma binding_at_put sl iface nsl h a0 iface0 name0 :
  binding_at (put_typed_locator sl iface nsl h) a0 iface0 name0 =
    if decide (a0 = sl_addr sl /\ iface0 = iface /\ is_Some (locators h !! a0))
    then smap.find name0 nsl else binding_at h a0 iface0 name0.
Proof.
  unfold binding_at. rewrite typed_locator_at_put.
  destruct (decide _); reflexivity.
Qed.

(** Creating the name map of a capability on demand adds no binding. *)
Lemma binding_at_put_default sl iface h a0 iface0 name0 :
  binding_at (put_typed_locator sl iface
                (default [] (typed_locator_at h (sl_addr sl) iface)) h) a0 iface0 name0
  = binding_at h a0 iface0 name0.
Proof.
  rewrite binding_at_put. destruct (decide _) as [(-> & -> & _)|]; [|reflexivity].
  unfold binding_at. destruct (typed_locator_at h (sl_addr sl) iface); reflexivity.
Qed.

Lemma eager_of_put sl iface nsl h sl0 :
  eager_of (put_typed_locator sl iface nsl h) sl0 = eager_of h sl0.
Proof.
  unfold eager_of, put_typed_locator. simpl.
  destruct (decide (sl_addr sl0 = sl_addr sl)) as [->|Hne].
  - rewrite lookup_alter_eq. destruct (locators h !! sl_addr sl); reflexivity.
  - rewrite lookup_alter_ne by congruence. reflexivity.
Qed.

(** The heap after a [bind] that succeeds. *)
Lemma bind_fresh_state sl iface named h :
  is_Some (locators h !! sl_addr sl) ->
  binding_at h (sl_addr sl) iface named = None ->
  let h1 := snd (bind sl iface named h) in
  bind sl iface named h = (Ret (next h), h1)
  /\ binding_at h1 (sl_addr sl) iface named = Some (next h)
  /\ bindings h1 !! next h = Some (mkBinding iface fn_empty None (sl_addr sl) None).
Proof.
  intros HL Hb h1.
  destruct (bind_eq_fresh sl iface named h Hb) as [h0 Hh0].
  split; [subst h1; rewrite Hh0; reflexivity|].
  split; [apply bind_registers; assumption|].
  subst h1. clear Hh0. unfold bind. msimpl.
  assert (Hcan : typed_canResolve (default [] (typed_locator_at h (sl_addr sl) iface)) named
                 = false).
  { apply not_true_iff_false. rewrite typed_canResolve_true.
    apply binding_at_None_cases in Hb as [Hn|(nsl & Hn & Hf)]; rewrite Hn; simpl.
    - intros [? ?]. discriminate.
    - rewrite Hf. intros [? ?]. discriminate. }
  rewrite Hcan. msimpl. simpl. apply lookup_insert_eq.
Qed.

Lemma nearest_binding_here h sl iface name b :
  binding_at h (sl_addr sl) iface name = Some b -> nearest_binding h sl iface name = Some b.
Proof. intros Hb. destruct sl; simpl in *; rewrite Hb; reflexivity. Qed.

Lemma _tryResolve_of_resolve exec sl iface slc h o h' :
  _resolve exec sl iface slc h = (Ret (Some o), h') ->
  _tryResolve exec sl iface slc h = (Ret (Some o), h').
Proof.
  rewrite _resolve_tryResolve.
  destruct (_tryResolve exec sl iface slc h) as [[[o0|]|e|r] h0]; try (intros H; exact H).
  unfold unable_to_resolve. msimpl. discriminate.
Qed.

(** X1.  [bind] touches one entry of one registry: whether it succeeds or
    raises, every other pair of the same locator and every pair of every
    other locator is bound as before, every binding object that existed is
    unchanged, and no eager queue changes.  In particular a registration in
    a child leaves its parent, and a registration in a parent leaves its
    children, as they were. *)
Theorem bind_frame sl iface named h :
  let h' := snd (bind sl iface named h) in
  (forall a0 iface0 name0,
      (a0, iface0, name0) <> (sl_addr sl, iface, named) ->
      binding_at h' a0 iface0 name0 = binding_at h a0 iface0 name0)
  /\ (forall b, b <> next h -> bindings h' !! b = bindings h !! b)
  /\ (forall sl0, eager_of h' sl0 = eager_of h sl0).
Proof.
  intros h'. subst h'. unfold bind. msimpl.
  set (nsl := default [] (typed_locator_at h (sl_addr sl) iface)).
  destruct (typed_canResolve nsl named) eqn:Hcan; cbn [snd].
  - split; [|split].
    + intros a0 iface0 name0 _. apply binding_at_put_default.
    + reflexivity.
    + intros sl0. apply eager_of_put.
  - msimpl. cbn [snd]. split; [|split].
    + intros a0 iface0 name0 Hne. rewrite binding_at_put.
      destruct (decide _) as [(-> & -> & _)|_].
      * rewrite smap_find_insert_ne by congruence.
        unfold binding_at, nsl.
        destruct (typed_locator_at h (sl_addr sl) iface) as [n0|] eqn:E; reflexivity.
      * apply (binding_at_put_default sl iface h).
    + intros b Hb. simpl. apply lookup_insert_ne. congruence.
    + intros sl0. rewrite eager_of_put. apply (eager_of_put sl iface nsl h sl0).
Qed.

Lemma bind_frame_witness :
  let h := Scenario.shadowed_type_heap in
  let h' := snd (bind Scenario.shadowed_type_child "ITest" "" h) in
  binding_at h' 0 "ITest" "" = binding_at h 0 "ITest" ""
  /\ binding_at h' 3 "ITest" "X" = binding_at h 3 "ITest" "X"
  /\ bindings h' !! 2 = bindings h !! 2.
Proof.
  intros h h'.
  pose proof (bind_frame Scenario.shadowed_type_child "ITest" "" h) as H.
  cbv zeta in H. destruct H as (Hat & Hbd & _).
  split; [|split].
  - apply Hat. discriminate.
  - apply Hat. discriminate.
  - apply Hbd. discriminate.
Defined.

(** X2.  A binding that was registered and never given a [to]-clause has
    an empty [_fnGet]: the pair counts as bound for [canResolve], and every
    lookup that reaches it fails with [std::bad_function_call], whether it
    is [resolve] or [tryResolve]. *)
Theorem unconfigured_binding_bad_function_call exec rounds sl iface slc h :
  is_Some (locators h !! sl_addr sl) ->
  binding_at h (sl_addr sl) iface (_name slc) = None ->
  let h1 := snd (bind sl iface (_name slc) h) in
  _resolve exec sl iface slc h1 = (Exc bad_function_call, h1)
  /\ _tryResolve exec sl iface slc h1 = (Exc bad_function_call, h1)
  /\ _canResolve sl iface slc h1 = (Ret true, h1)
  /\ (forall this,
         _sl this = sl ->
         ~ recursive_request
             (mkContext (next h1) (_root this) (Some this) sl iface (_name slc)) this ->
         resolve exec rounds this iface (_name slc) h1
         = (Exc bad_function_call, with_next S h1)).
Proof.
  intros HL Hb h1.
  destruct (bind_fresh_state sl iface (_name slc) h HL Hb) as (_ & Hat & Hbd).
  fold h1 in Hat, Hbd.
  assert (Hget : forall slc0 h0, bindings h0 !! next h = bindings h1 !! next h ->
                   binding_get exec (next h) slc0 h0 = (Exc bad_function_call, h0)).
  { intros slc0 h0 E. unfold binding_get. msimpl. rewrite E, Hbd. reflexivity. }
  assert (Hres : _resolve exec sl iface slc h1 = (Exc bad_function_call, h1)).
  { rewrite _resolve_step, Hat. cbv zeta. rewrite Hget; reflexivity. }
  split; [exact Hres|]. split; [|split].
  - rewrite _tryResolve_step, Hat. cbv zeta. rewrite Hget; reflexivity.
  - rewrite _canResolve_step. apply binding_at_Some_cases in Hat as (nsl & -> & Hf).
    f_equal. f_equal. apply typed_canResolve_true. eauto.
  - intros this Hsl Hno. rewrite resolve_eq. cbv zeta. rewrite Hsl. msimpl.
    rewrite (checkRecursiveResolve_passes _ _ _ Hno). msimpl.
    rewrite _resolve_step. cbv zeta. cbn [_name].
    change (binding_at (with_next S h1) (sl_addr sl) iface (_name slc))
      with (binding_at h1 (sl_addr sl) iface (_name slc)).
    rewrite Hat. rewrite Hget; reflexivity.
Qed.

Lemma unconfigured_binding_bad_function_call_witness :
  let h1 := snd ((sl ← create; bind sl "ITest" "") empty_heap) in
  resolve (run 1) 1 (persistent_Context Scenario.root) "ITest" "" h1
  = (Exc bad_function_call, with_next S h1).
Proof.
  intros h1.
  destruct (unconfigured_binding_bad_function_call (run 1) 1 Scenario.root "ITest"
              (persistent_Context Scenario.root) (snd (create empty_heap)))
    as (_ & _ & _ & Hres).
  - eexists. vm_compute. reflexivity.
  - vm_compute. reflexivity.
  - apply (Hres (persistent_Context Scenario.root) eq_refl).
    intros (c & Hin & Ht & _). apply list_elem_of_singleton in Hin as ->. discriminate Ht.
Defined.

(** X3.  Registration and lookup round trip: after [bind] of a pair that
    is free and [toInstance] of a non-null instance, the new binding is the
    one of the pair in that locator, and [_resolve] and [_tryResolve]
    through that locator, or through any descendant whose closest binding
    of the pair it is, return that very instance and leave the heap as it
    is: nothing is constructed. *)
Theorem bind_toInstance_resolve exec sl iface slc o h :
  is_Some (locators h !! sl_addr sl) ->
  binding_at h (sl_addr sl) iface (_name slc) = None ->
  let h2 := snd ((b ← bind sl iface (_name slc); toInstance b (Some o)) h) in
  nearest_binding h2 sl iface (_name slc) = Some (next h)
  /\ (forall sl',
         nearest_binding h2 sl' iface (_name slc) = Some (next h) ->
         _resolve exec sl' iface slc h2 = (Ret (Some o), h2)
         /\ _tryResolve exec sl' iface slc h2 = (Ret (Some o), h2)).
Proof.
  intros HL Hb h2.
  destruct (bind_fresh_state sl iface (_name slc) h HL Hb) as (Hbind & Hat & Hbd).
  assert (Hh2 : h2 = snd (toInstance (next h) (Some o) (snd (bind sl iface (_name slc) h)))).
  { subst h2. rewrite bind_eq, Hbind. reflexivity. }
  assert (Hbd2 : bindings h2 !! next h
                 = Some (mkBinding iface (fn_instance (Some o)) None (sl_addr sl) None)).
  { rewrite Hh2. unfold toInstance, set_fnGet. rewrite modify_eq. cbn [snd]. simpl bindings.
    rewrite lookup_alter_eq, Hbd. reflexivity. }
  assert (Hget : binding_get exec (next h) slc h2 = (Ret (Some o), h2)).
  { unfold binding_get. msimpl. rewrite Hbd2. reflexivity. }
  assert (Hat2 : binding_at h2 (sl_addr sl) iface (_name slc) = Some (next h)).
  { rewrite Hh2. exact Hat. }
  split; [apply nearest_binding_here, Hat2|].
  intros sl' Hn.
  assert (Hres : _resolve exec sl' iface slc h2 = (Ret (Some o), h2))
    by (eapply _resolve_nearest; [exact Hn|exact Hget]).
  split; [exact Hres|apply _tryResolve_of_resolve, Hres].
Qed.

Lemma bind_toInstance_resolve_witness :
  let h2 := snd ((sl ← create; b ← bind sl "ITest" ""; toInstance b (Some 100)) empty_heap) in
  let slc := persistent_Context Scenario.root in
  _resolve (run 0) Scenario.root "ITest" slc h2 = (Ret (Some 100), h2)
  /\ _tryResolve (run 0) Scenario.root "ITest" slc h2 = (Ret (Some 100), h2).
Proof.
  intros h2 slc.
  destruct (bind_toInstance_resolve (run 0) Scenario.root "ITest" slc 100
              (snd (create empty_heap))) as (Hn & Hres).
  - eexists. vm_compute. reflexivity.
  - vm_compute. reflexivity.
  - apply (Hres Scenario.root Hn).
Defined.

(** X4.  [bind] hands the new binding the eager queue of the locator it is
    called on, and [eagerly] appends the binding to that queue: after
    [bind] and [eagerly] the queue of that locator is the old one followed
    by the new binding, the queue of every other locator is unchanged, and
    nothing has been constructed. *)
Theorem bind_eagerly_enqueues sl iface named h :
  is_Some (locators h !! sl_addr sl) ->
  binding_at h (sl_addr sl) iface named = None ->
  let r := (b ← bind sl iface named; eagerly b;; mret b) h in
  fst r = Ret (next h)
  /\ eager_of (snd r) sl = eager_of h sl ++ [next h]
  /\ (forall sl0, sl_addr sl0 <> sl_addr sl -> eager_of (snd r) sl0 = eager_of h sl0)
  /\ created (snd r) = created h.
Proof.
  intros HL Hb r.
  destruct (bind_fresh_state sl iface named h HL Hb) as (Hbind & Hat & Hbd).
  set (h1 := snd (bind sl iface named h)) in *.
  assert (HL1 : is_Some (locators h1 !! sl_addr sl)).
  { unfold binding_at, typed_locator_at in Hat.
    destruct (locators h1 !! sl_addr sl); [eauto|discriminate]. }
  assert (Hq1 : forall sl0, eager_of h1 sl0 = eager_of h sl0).
  { intros sl0. unfold h1, bind. msimpl.
    destruct (typed_canResolve _ named); cbn [snd]; [apply eager_of_put|].
    msimpl. cbn [snd]. rewrite eager_of_put.
    apply (eager_of_put sl iface _ h sl0). }
  assert (Hc1 : created h1 = created h) by apply created_bind.
  subst r. rewrite bind_eq, Hbind. unfold eagerly. msimpl. rewrite Hbd. msimpl.
  cbn [fst snd _eagerBindings_of]. split; [reflexivity|]. split; [|split].
  - unfold eager_of in *. simpl. rewrite lookup_alter_eq.
    specialize (Hq1 sl). destruct HL1 as [L HL1]. rewrite HL1 in *. simpl in *.
    rewrite Hq1. reflexivity.
  - intros sl0 Hne. rewrite <- Hq1. unfold eager_of. simpl.
    rewrite lookup_alter_ne by congruence. reflexivity.
  - exact Hc1.
Qed.

Lemma bind_eagerly_enqueues_witness :
  let h := snd (create empty_heap) in
  let r := (b ← bind Scenario.root "TestEager" ""; eagerly b;; mret b) h in
  eager_of (snd r) Scenario.root = eager_of h Scenario.root ++ [2]
  /\ created (snd r) = [].
Proof.
  intros h r.
  destruct (bind_eagerly_enqueues Scenario.root "TestEager" "" h) as (_ & Hq & _ & Hc).
  - eexists. vm_compute. reflexivity.
  - vm_compute. reflexivity.
  - split; [exact Hq|exact Hc].
Defined.

Lemma typed_locator_at_new a h a0 iface :
  typed_locator_at (with_locators <[a := mkLocator ∅ []]> h) a0 iface =
    if decide (a0 = a) then None else typed_locator_at h a0 iface.
Proof.
  unfold typed_locator_at. simpl. destruct (decide (a0 = a)) as [->|Hne].
  - rewrite lookup_insert_eq. simpl. apply lookup_empty.
  - rewrite lookup_insert_ne by congruence. reflexivity.
Qed.

(** X5.  [enter] makes a child with an empty registry and an empty eager
    queue: as long as nothing is bound in it, every lookup through the
    child is the same lookup through its parent, for [_resolve],
    [_tryResolve], [_canResolve] and the enumeration of [resolveAll] alike;
    the registries of the other locators and all binding objects are
    untouched. *)
Theorem enter_inherits this h :
  let child := ChildLocator (next h) (S (next h)) this in
  let h' := snd (enter this h) in
  enter this h = (Ret child, h')
  /\ (forall exec iface slc,
         _resolve exec child iface slc h' = _resolve exec this iface slc h'
         /\ _tryResolve exec child iface slc h' = _tryResolve exec this iface slc h'
         /\ _canResolve child iface slc h' = _canResolve this iface slc h')
  /\ (forall iface, enumerate h' child iface = enumerate h' this iface)
  /\ eager_of h' child = []
  /\ (forall a, a <> next h -> locators h' !! a = locators h !! a)
  /\ bindings h' = bindings h.
Proof.
  intros child h'. subst h'. unfold enter. msimpl. cbn [snd].
  set (h' := with_locators _ _).
  assert (Hnone : forall iface, typed_locator_at h' (next h) iface = None).
  { intros iface. unfold h'. rewrite typed_locator_at_new, decide_True; reflexivity. }
  assert (Hat : forall iface name, binding_at h' (next h) iface name = None).
  { intros iface name. unfold binding_at. rewrite Hnone. reflexivity. }
  split; [reflexivity|]. split; [|split; [|split; [|split]]].
  - intros exec iface slc. split; [|split].
    + rewrite _resolve_step. simpl sl_addr. rewrite Hat. reflexivity.
    + rewrite _tryResolve_step. simpl sl_addr. rewrite Hat. reflexivity.
    + rewrite _canResolve_step. simpl sl_addr. rewrite Hnone. reflexivity.
  - intros iface. unfold enumerate. simpl. rewrite Hnone. reflexivity.
  - unfold eager_of. simpl. rewrite lookup_insert_eq. reflexivity.
  - intros a Ha. simpl. apply lookup_insert_ne. congruence.
  - reflexivity.
Qed.

(** X6.  A locator fresh from [create] binds nothing: through it
    [_tryResolve] returns null, [_resolve] raises
    [UnableToResolveException] and [_canResolve] answers false for every
    capability and name, [resolveAll] has nothing to visit, and
    [getContext] has no eager binding to construct. *)
Theorem create_resolves_nothing h :
  let sl := RootLocator (next h) (S (next h)) in
  let h' := snd (create h) in
  create h = (Ret sl, h')
  /\ (forall exec iface slc,
         _tryResolve exec sl iface slc h' = (Ret None, h')
         /\ (exists m, _resolve exec sl iface slc h' = (Exc (UnableToResolveException m), h'))
         /\ _canResolve sl iface slc h' = (Ret false, h'))
  /\ (forall iface, enumerate h' sl iface = [])
  /\ (forall exec, getContext exec sl h' = (Ret (persistent_Context sl), h')).
Proof.
  intros sl h'. subst h'. unfold create. msimpl. cbn [snd].
  set (h' := with_locators _ _).
  assert (Hnone : forall iface, typed_locator_at h' (next h) iface = None).
  { intros iface. unfold h'. rewrite typed_locator_at_new, decide_True; reflexivity. }
  assert (Hat : forall iface name a, a ∈ sl_chain sl -> binding_at h' a iface name = None).
  { intros iface name a Hin. apply list_elem_of_singleton in Hin as ->.
    unfold binding_at. rewrite Hnone. reflexivity. }
  split; [reflexivity|]. split; [|split].
  - intros exec iface slc. split; [|split].
    + apply _tryResolve_unbound. intros a. apply Hat.
    + rewrite _resolve_unbound by (intros a; apply Hat).
      unfold unable_to_resolve. msimpl. eexists. reflexivity.
    + rewrite _canResolve_step. simpl sl_addr. rewrite Hnone. reflexivity.
  - intros iface. unfold enumerate. simpl. rewrite Hnone. reflexivity.
  - intros exec. rewrite getContext_eq.
    assert (Hq : eager_of h' sl = []).
    { unfold eager_of, h'. simpl. rewrite lookup_insert_eq. reflexivity. }
    rewrite Hq. reflexivity.
Qed.

(** ** What [canResolve] answers *)






(** ** Constructions *)

(** [pbind] is sequencing. *)
Lemma interp_pbind exec rounds p f h :
  interp exec rounds (pbind p f) h =
    (v ← interp exec rounds p; interp exec rounds (f v)) h.
Proof.
  revert h.
  induction p as [v|e|k IH|c i n k IH|c i n k IH|c i n k IH|c i k IH|c fn _ k IH|c t k IH
                 |c i n k IH|c i n k IH]; intros h; cbn [pbind interp]; msimpl;
    try reflexivity.
  - apply IH.
  - destruct (resolve exec rounds c i n h) as [[v|e|r] h1]; [apply IH|reflexivity..].
  - destruct (tryResolve exec rounds c i n h) as [[v|e|r] h1]; [apply IH|reflexivity..].
  - destruct (canResolve c i n h) as [[v|e|r] h1]; [apply IH|reflexivity..].
  - destruct (resolveAll exec rounds c i h) as [[v|e|r] h1]; [apply IH|reflexivity..].
  - destruct (afterResolve_push c fn h) as [[v|e|r] h1]; [apply IH|reflexivity..].
  - destruct (setConcreteType c t h) as [[v|e|r] h1]; [apply IH|reflexivity..].
  - destruct (provider exec rounds c i n h) as [[v|e|r] h1]; [apply IH|reflexivity..].
  - destruct (tryProvider exec rounds c i n h) as [[v|e|r] h1]; [apply IH|reflexivity..].
Qed.

Lemma binding_get_create exec b bd f slc h :
  bindings h !! b = Some bd -> _fnGet bd = fn_create -> _fnCreate bd = Some f ->
  binding_get exec b slc h = exec (f slc) (with_created (fun l => l ++ [b]) h).
Proof.
  intros Hb Hg Hf. unfold binding_get. msimpl. rewrite Hb, Hg.
  apply (call_fnCreate_eq exec b bd f slc h Hb Hf).
Qed.

Lemma preserves_interp_run fuel p : preserves (interp (run fuel) fuel p).
Proof. apply (preserves_run (S fuel) p). Qed.

(** What the closure of [to<TImpl>()] returns when it returns. *)
Lemma to_closure_fresh fuel TImpl (ctor : Context -> Prog) slc h v h' :
  run fuel (SetConcreteType slc TImpl
              (pbind (ctor slc) (fun _ => New (fun o => Return (Some o))))) h = (Ret v, h') ->
  exists o, v = Some o /\ next h <= o /\ o < next h'.
Proof.
  destruct fuel as [|fuel]; [discriminate|].
  cbn [run interp]. msimpl.
  pose proof (preserves_setConcreteType slc TImpl h) as Hev0.
  destruct (setConcreteType slc TImpl h) as [[[]|e|r] h0]; try discriminate.
  rewrite interp_pbind. msimpl.
  pose proof (preserves_interp_run fuel (ctor slc) h0) as Hev1.
  destruct (interp (run fuel) fuel (ctor slc) h0) as [[w|e|r] h1]; try discriminate.
  cbn [interp]. msimpl. intros [= <- <-].
  exists (next h1). split; [reflexivity|].
  pose proof (ev_next _ _ Hev0). pose proof (ev_next _ _ Hev1). simpl in *. lia.
Qed.

(** X8.  A transient binding made by [to<TImpl>()] constructs on every
    [get]: a [get] that returns yields a non-null object that did not exist
    before the call, so it differs from the result of every later [get] of
    the same binding. *)
Theorem transient_fresh_instance fuel b bd TImpl ctor slc h v h' :
  bindings h !! b = Some bd ->
  _fnGet bd = fn_create ->
  _fnCreate bd
  = Some (fun slc => SetConcreteType slc TImpl
                       (pbind (ctor slc) (fun _ => New (fun o => Return (Some o))))) ->
  binding_get (run fuel) b slc h = (Ret v, h') ->
  (exists o, v = Some o /\ next h <= o /\ o < next h')
  /\ (forall fuel' slc' h2 v2 h3,
         next h' <= next h2 ->
         bindings h2 !! b = Some bd ->
         binding_get (run fuel') b slc' h2 = (Ret v2, h3) ->
         v2 <> v).
Proof.
  intros Hb Hg Hf Hget.
  assert (Hfresh : forall fuel0 slc0 h0 v0 h0',
             bindings h0 !! b = Some bd ->
             binding_get (run fuel0) b slc0 h0 = (Ret v0, h0') ->
             exists o, v0 = Some o /\ next h0 <= o /\ o < next h0').
  { intros fuel0 slc0 h0 v0 h0' Hb0 Hget0.
    rewrite (binding_get_create _ _ _ _ _ _ Hb0 Hg Hf) in Hget0.
    apply to_closure_fresh in Hget0. exact Hget0. }
  destruct (Hfresh _ _ _ _ _ Hb Hget) as (o & -> & Hlo & Hhi).
  split; [eauto|].
  intros fuel' slc' h2 v2 h3 Hle Hb2 Hget2.
  destruct (Hfresh _ _ _ _ _ Hb2 Hget2) as (o2 & -> & Hlo2 & _).
  intros [= ->]. lia.
Qed.

Lemma transient_fresh_instance_witness :
  let h := Scenario.constructing_a_heap in
  let r1 := binding_get (run 1) 3 Scenario.constructing_b h in
  let r2 := binding_get (run 1) 3 Scenario.constructing_b' (with_next S (snd r1)) in
  (exists o, fst r1 = Ret (Some o) /\ next h <= o)
  /\ fst r2 <> fst r1.
Proof.
  intros h r1 r2.
  destruct (transient_fresh_instance 1 3 Scenario.transient_binding "TestB"
              Scenario.no_dependency Scenario.constructing_b h (Some 6) (snd r1))
    as [(o & Ho & Hlo & _) Hd]; try reflexivity.
  split.
  - exists o. split; [rewrite <- Ho; reflexivity|exact Hlo].
  - intros Heq.
    apply (Hd 1 Scenario.constructing_b' (with_next S (snd r1)) (Some 8) (snd r2));
      [vm_compute; lia|reflexivity|reflexivity|].
    vm_compute in Heq. congruence.
Defined.

(** X9.  A binding made by a [to]-clause names its concrete type on the
    context before anything else, so it can only be asked on a context that
    has no concrete type yet: on a context that has one, [get] raises
    [BindingIssueException] and the constructor or factory is not run; the
    call of [_fnCreate] is the only trace it leaves. *)
Theorem to_clause_on_typed_context_raises fuel b bd TImpl body slc t h :
  bindings h !! b = Some bd ->
  _fnGet bd = fn_create \/ _fnGet bd = fn_singleton ->
  _fnCreate bd = Some (fun slc => SetConcreteType slc TImpl (body slc)) ->
  concreteType h !! ctx_addr slc = Some t ->
  binding_get (run (S fuel)) b slc h
  = (Exc (BindingIssueException "Concrete type on Context already set"),
     with_created (fun l => l ++ [b]) h).
Proof.
  intros Hb Hg Hf Ht.
  assert (Hcall : call_fnCreate (run (S fuel)) b slc h
                  = (Exc (BindingIssueException "Concrete type on Context already set"),
                     with_created (fun l => l ++ [b]) h)).
  { rewrite (call_fnCreate_eq _ _ _ _ _ _ Hb Hf). cbn [run interp]. msimpl.
    unfold setConcreteType. msimpl. cbn [concreteType with_created]. rewrite Ht.
    reflexivity. }
  unfold binding_get. msimpl. rewrite Hb.
  destruct Hg as [-> | ->]; [exact Hcall|]. msimpl. rewrite Hcall. reflexivity.
Qed.

Lemma to_clause_on_typed_context_raises_witness :
  let h1 := snd (binding_get (run 1) 3 Scenario.constructing_b Scenario.constructing_a_heap) in
  concreteType h1 !! 5 = Some "TestB"
  /\ binding_get (run 1) 3 Scenario.constructing_b h1
     = (Exc (BindingIssueException "Concrete type on Context already set"),
        with_created (fun l => l ++ [3]) h1).
Proof.
  intros h1. split; [reflexivity|].
  apply (to_clause_on_typed_context_raises 0 3 Scenario.transient_binding "TestB"
           (fun slc => pbind (Scenario.no_dependency slc)
                         (fun _ => New (fun o => Return (Some o))))
           Scenario.constructing_b "TestB" h1);
    [reflexivity|left; reflexivity|reflexivity|reflexivity].
Defined.

(** X10.  A binding made by [alias] is a forward: its [get] is [resolve]
    of the target pair on the context it is handed, so the request of that
    context is on the chain the cycle check walks.  An alias whose target
    is a pair already requested on that chain, an alias to its own pair
    first of all, raises [RecursiveResolveException] before any registry is
    consulted. *)
Theorem alias_forwards fuel b bd f IAlias name slc h :
  bindings h !! b = Some bd ->
  _fnGet bd = fn_create ->
  _fnCreate bd = Some f ->
  f slc = Resolve slc IAlias name Return ->
  let h1 := with_created (fun l => l ++ [b]) h in
  binding_get (run (S fuel)) b slc h = resolve (run fuel) fuel slc IAlias name h1
  /\ (recursive_request
        (mkContext (next h) (_root slc) (Some slc) (_sl slc) IAlias name) slc ->
      exists m, binding_get (run (S fuel)) b slc h
                = (Exc (RecursiveResolveException m), with_next S h1))
  /\ (_interfaceType slc = IAlias -> _name slc = name ->
      exists m, binding_get (run (S fuel)) b slc h
                = (Exc (RecursiveResolveException m), with_next S h1)).
Proof.
  intros Hb Hg Hf Hfs h1.
  assert (Heq : binding_get (run (S fuel)) b slc h
                = resolve (run fuel) fuel slc IAlias name h1).
  { rewrite (binding_get_create _ _ _ _ _ _ Hb Hg Hf), Hfs. cbn [run interp]. msimpl.
    fold h1. destruct (resolve (run fuel) fuel slc IAlias name h1) as [[v|e|r] h2];
      reflexivity. }
  assert (Hrec : recursive_request
                   (mkContext (next h) (_root slc) (Some slc) (_sl slc) IAlias name) slc ->
                 exists m, binding_get (run (S fuel)) b slc h
                           = (Exc (RecursiveResolveException m), with_next S h1)).
  { intros Hr. rewrite Heq, resolve_eq. cbv zeta. msimpl.
    change (next h1) with (next h).
    rewrite (checkRecursiveResolve_raises _ _ _ Hr). eexists. reflexivity. }
  split; [exact Heq|]. split; [exact Hrec|].
  intros Hi Hn. apply Hrec. exists slc. split; [|split; [exact Hi|exact Hn]].
  destruct slc as [? ? [?|] ? ? ?]; apply list_elem_of_here.
Qed.

Lemma alias_forwards_witness :
  let h := with_next S Scenario.aliased_heap in
  let asking t := mkContext 5 1 (Some (persistent_Context Scenario.root)) Scenario.root t "" in
  fst (binding_get (run 2) 3 (asking "IAlias") h) = Ret (Some 100)
  /\ exists m, binding_get (run 2) 4 (asking "ILoop") h
               = (Exc (RecursiveResolveException m),
                  with_next S (with_created (fun l => l ++ [4]) h)).
Proof.
  intros h asking. split.
  - rewrite (proj1 (alias_forwards 1 3 (Scenario.alias_binding "ITest" "IAlias")
                      (fun slc => Resolve slc "ITest" "" Return) "ITest" ""
                      (asking "IAlias") h eq_refl eq_refl eq_refl eq_refl)).
    vm_compute. reflexivity.
  - apply (proj2 (proj2 (alias_forwards 1 4 (Scenario.alias_binding "ILoop" "ILoop")
                           (fun slc => Resolve slc "ILoop" "" Return) "ILoop" ""
                           (asking "ILoop") h eq_refl eq_refl eq_refl eq_refl))
             eq_refl eq_refl).
Defined.

(** ** [resolveAll] *)

Lemma smap_find_all_None {V} (m : smap.t V) :
  (forall k, smap.find k m = None) -> m = [].
Proof.
  destruct m as [|[k v] m]; [reflexivity|]. intros H. specialize (H k). simpl in H.
  rewrite String.eqb_refl in H. discriminate.
Qed.

Lemma _visitAll_unbound {A} sl iface (fnVisit : addr -> M A) h :
  (forall a name, a ∈ sl_chain sl -> binding_at h a iface name = None) ->
  _visitAll sl iface fnVisit h = (Ret [], h).
Proof.
  induction sl as [a c|a c parent IH]; intros H; cbn [_visitAll]; msimpl;
    rewrite visit_here;
    assert (Hnsl : default [] (typed_locator_at h a iface) = []).
  1,3: pose proof (fun name => H a name (list_elem_of_here _ _)) as Ha;
    unfold binding_at in Ha; simpl in Ha;
    destruct (typed_locator_at h a iface) as [nsl|]; [|reflexivity];
    simpl in *; apply smap_find_all_None, Ha.
  - simpl sl_addr. rewrite Hnsl. reflexivity.
  - simpl sl_addr. rewrite Hnsl. cbn [smap.values map mapM]. msimpl.
    rewrite IH; [reflexivity|].
    intros a0 name Hin. apply H, list_elem_of_further, Hin.
Qed.

(** X11.  [resolveAll] of a capability that no locator of the chain binds
    under any name visits nothing: it makes no context, checks no cycle and
    raises nothing, runs [afterResolve] and yields the empty sequence; from
    a context that is not a root, or whose list is empty, the heap is
    unchanged. *)
Theorem resolveAll_unbound exec rounds this iface h :
  (forall a name, a ∈ sl_chain (_sl this) -> binding_at h a iface name = None) ->
  resolveAll exec rounds this iface h = (afterResolve exec rounds this;; mret []) h
  /\ (ctx_addr this <> _root this -> resolveAll exec rounds this iface h = (Ret [], h))
  /\ (fnAfterResolveList h !! ctx_addr this = None ->
      resolveAll exec rounds this iface h = (Ret [], h)).
Proof.
  intros H.
  assert (Heq : resolveAll exec rounds this iface h
                = (afterResolve exec rounds this;; mret []) h).
  { unfold resolveAll. rewrite bind_eq, (_visitAll_unbound _ _ _ _ H). reflexivity. }
  split; [exact Heq|]. split.
  - intros Hne. rewrite Heq, bind_eq, (afterResolve_not_root _ _ _ _ Hne). reflexivity.
  - intros Hl. rewrite Heq, bind_eq. unfold afterResolve.
    destruct (bool_decide (ctx_addr this = _root this)); [|reflexivity].
    msimpl. rewrite Hl. reflexivity.
Qed.

Lemma resolveAll_unbound_witness :
  let h := Scenario.scoping_heap in
  resolveAll (run 0) 0 (persistent_Context Scenario.child1) "Missing" h = (Ret [], h).
Proof.
  intros h.
  apply (proj2 (proj2 (resolveAll_unbound (run 0) 0 (persistent_Context Scenario.child1)
                         "Missing" h ltac:(
    intros a name Hin; apply elem_of_cons in Hin as [->|Hin];
      [|apply list_elem_of_singleton in Hin as ->]; reflexivity)))).
  reflexivity.
Defined.




(** X13.  The cycle check of [resolveAll] is made once for each binding it
    visits, against the unnamed request of the capability: from a context
    whose chain already requests the capability unnamed, [resolveAll]
    raises [RecursiveResolveException] at the first binding, before any
    binding is asked, whatever the names of the bindings are. *)
Theorem resolveAll_recursive fuel this iface h :
  recursive_request
    (mkContext (next h) (_root this) (Some this) (_sl this) iface "") this ->
  enumerate h (_sl this) iface <> [] ->
  exists m,
    resolveAll (run fuel) fuel this iface h
    = (Exc (RecursiveResolveException m), with_next S h).
Proof.
  intros Hr Hne. unfold resolveAll. rewrite bind_eq, _visitAll_enumerate
    by (intros b; apply preserves_resolveAll_visit, preserves_run).
  destruct (enumerate h (_sl this) iface) as [|b bs]; [contradiction|].
  cbn [mapM]. msimpl. unfold resolveAll_visit at 1, new_Context. msimpl.
  rewrite (checkRecursiveResolve_raises _ _ _ Hr). eexists. reflexivity.
Qed.

Lemma resolveAll_recursive_witness :
  let h := Scenario.visiting_X_heap in
  exists m,
    resolveAll (run 1) 1 Scenario.visiting_X "ITest" h
    = (Exc (RecursiveResolveException m), with_next S h).
Proof.
  intros h. apply (resolveAll_recursive 1 Scenario.visiting_X "ITest" h).
  - exists Scenario.visiting_X. split; [apply list_elem_of_here|split; reflexivity].
  - vm_compute. discriminate.
Defined.

(** ** Providers *)

Lemma provider_eq exec rounds this iface name h :
  provider exec rounds this iface name h =
    let ctx := mkContext (next h) (next h) None (_sl this) iface name in
    (ptr ← _resolve exec (_sl this) iface ctx;
     afterResolve exec rounds ctx;; mret ptr) (with_next S h).
Proof. unfold provider, new_root_Context. msimpl. reflexivity. Qed.

Lemma tryProvider_eq exec rounds this iface name h :
  tryProvider exec rounds this iface name h =
    let ctx := mkContext (next h) (next h) None (_sl this) iface name in
    (ptr ← _tryResolve exec (_sl this) iface ctx;
     afterResolve exec rounds ctx;; mret ptr) (with_next S h).
Proof. unfold tryProvider, new_root_Context. msimpl. reflexivity. Qed.

(** X14.  A provider starts a resolution of its own: its context is a new
    root with no parent, and of the context the provider was taken from
    only the locator is used.  No cycle check is made, so a provider
    resolves a pair even from inside the construction of that very pair,
    where [resolve] raises; when the closest binding yields an instance,
    [provider] and [tryProvider] return it after [afterResolve] on the new
    root. *)
Theorem provider_no_cycle_check exec rounds this iface name h b o h2 :
  let ctx := mkContext (next h) (next h) None (_sl this) iface name in
  nearest_binding h (_sl this) iface name = Some b ->
  binding_get exec b ctx (with_next S h) = (Ret (Some o), h2) ->
  provider exec rounds this iface name h = (afterResolve exec rounds ctx;; mret (Some o)) h2
  /\ tryProvider exec rounds this iface name h
     = (afterResolve exec rounds ctx;; mret (Some o)) h2
  /\ (forall this',
         _sl this' = _sl this ->
         provider exec rounds this' iface name h = provider exec rounds this iface name h).
Proof.
  intros ctx Hn Hget.
  assert (Hres : _resolve exec (_sl this) iface ctx (with_next S h) = (Ret (Some o), h2)).
  { eapply _resolve_nearest; [|exact Hget]. rewrite nearest_binding_with_next. exact Hn. }
  split; [|split].
  - rewrite provider_eq. cbv zeta. fold ctx. rewrite bind_eq, Hres. reflexivity.
  - rewrite tryProvider_eq. cbv zeta. fold ctx.
    rewrite bind_eq, (_tryResolve_of_resolve _ _ _ _ _ _ _ Hres). reflexivity.
  - intros this' Hsl. rewrite !provider_eq. cbv zeta. rewrite Hsl. reflexivity.
Qed.

Lemma provider_no_cycle_check_witness :
  let h := Scenario.constructing_a_heap in
  let this := Scenario.constructing_a in
  fst (provider (run 2) 2 this "ITest" "a" h) = Ret (Some 9)
  /\ exists m, fst (resolve (run 2) 2 this "ITest" "a" h) = Exc (RecursiveResolveException m).
Proof.
  intros h this. split.
  - rewrite (proj1 (provider_no_cycle_check (run 2) 2 this "ITest" "a" h 2 9
                      (snd (binding_get (run 2) 2
                              (mkContext (next h) (next h) None (_sl this) "ITest" "a")
                              (with_next S h)))
                      ltac:(vm_compute; reflexivity) ltac:(vm_compute; reflexivity))).
    vm_compute. reflexivity.
  - eexists. vm_compute. reflexivity.
Defined.

(** X15.  A call of a provider that returns yields a non-null instance and
    has drained the list of its own root before returning: the callbacks
    registered on that root during the lookup, and those registered by the
    callbacks themselves, have been run in order, each on a context of its
    own, and the list is deleted. *)
Theorem provider_drains_own_list fuel this iface name h v h' :
  let ctx := mkContext (next h) (next h) None (_sl this) iface name in
  lists_allocated h ->
  provider (run fuel) fuel this iface name h = (Ret v, h') ->
  v <> None
  /\ fnAfterResolveList h' !! next h = None
  /\ exists h1,
      _resolve (run fuel) (_sl this) iface ctx (with_next S h) = (Ret v, h1)
      /\ match fnAfterResolveList h1 !! next h with
         | None => h' = h1
         | Some (l, fns) =>
             exists fns' h_end,
               fns `prefix_of` fns'
               /\ run_callbacks (run fuel) (_sl this) fns' h1 = (Ret tt, h_end)
               /\ fnAfterResolveList h_end !! next h = Some (l, fns')
               /\ h' = with_fnAfterResolveList (delete (next h)) h_end
         end.
Proof.
  intros ctx Hal. rewrite provider_eq. cbv zeta. fold ctx. rewrite bind_eq.
  pose proof (_resolve_not_null (run fuel) (_sl this) iface ctx (with_next S h)) as Hnn.
  pose proof (preserves__resolve (run fuel) (preserves_run fuel) (_sl this) iface ctx
                (with_next S h)) as Hev.
  destruct (_resolve (run fuel) (_sl this) iface ctx (with_next S h)) as [[ptr|e|r] h1];
    try discriminate.
  msimpl.
  destruct (afterResolve (run fuel) fuel ctx h1) as [[[]|e|r] h2] eqn:Hafter;
    try discriminate.
  msimpl. intros [= <- <-]. simpl in Hnn, Hev.
  assert (Hal1 : lists_allocated h1).
  { apply (ev_allocated _ _ Hev). intros r0 l0 fns0 Hl0. simpl in *.
    specialize (Hal _ _ _ Hl0). lia. }
  destruct (afterResolve_root (run fuel) fuel ctx h1 h2 (preserves_run fuel) eq_refl
              Hal1 Hafter) as [Hgone Hrun].
  split; [intros ->; apply Hnn; reflexivity|]. split; [exact Hgone|].
  exists h1. split; [reflexivity|exact Hrun].
Qed.

Lemma provider_drains_own_list_witness :
  let h := Scenario.deferred_heap in
  let r := provider (run 2) 2 (persistent_Context Scenario.root) "ITest" "" h in
  fst r = Ret (Some 5)
  /\ fnAfterResolveList (snd r) !! next h = None
  /\ concreteType (snd r) !! 7 = Some "second".
Proof.
  intros h r.
  destruct (provider_drains_own_list 2 (persistent_Context Scenario.root) "ITest" "" h
              (Some 5) (snd r)) as (_ & Hgone & _).
  - apply lists_allocated_empty. reflexivity.
  - vm_compute. reflexivity.
  - split; [vm_compute; reflexivity|]. split; [exact Hgone|vm_compute; reflexivity].
Defined.

(** X16.  Through a provider the softness of the lookup is the only
    difference, as it is between [resolve] and [tryResolve]: for a pair that
    no locator of the chain binds, the function made by [provider] raises
    [UnableToResolveException] and the one made by [tryProvider] returns
    null, after [afterResolve] on its new root, which has no list unless
    one was stored at its address beforehand. *)
Theorem provider_unbound exec rounds this iface name h :
  let ctx := mkContext (next h) (next h) None (_sl this) iface name in
  (forall a, a ∈ sl_chain (_sl this) -> binding_at h a iface name = None) ->
  (exists m, provider exec rounds this iface name h
             = (Exc (UnableToResolveException m), with_next S h))
  /\ tryProvider exec rounds this iface name h
     = (afterResolve exec rounds ctx;; mret None) (with_next S h)
  /\ (fnAfterResolveList h !! next h = None ->
      tryProvider exec rounds this iface name h = (Ret None, with_next S h)).
Proof.
  intros ctx H.
  assert (H1 : forall a, a ∈ sl_chain (_sl this) ->
                         binding_at (with_next S h) a iface (_name ctx) = None)
    by (intros a Hin; apply (H a Hin)).
  assert (Htry : tryProvider exec rounds this iface name h
                 = (afterResolve exec rounds ctx;; mret None) (with_next S h)).
  { rewrite tryProvider_eq. cbv zeta. fold ctx.
    rewrite bind_eq, (_tryResolve_unbound _ _ _ _ _ H1). reflexivity. }
  split; [|split].
  - rewrite provider_eq. cbv zeta. fold ctx.
    rewrite bind_eq, (_resolve_unbound _ _ _ _ _ H1). unfold unable_to_resolve. msimpl.
    eexists. reflexivity.
  - exact Htry.
  - intros Hl. rewrite Htry, bind_eq. unfold afterResolve.
    destruct (bool_decide (ctx_addr ctx = _root ctx)); [|reflexivity].
    msimpl. cbn [ctx_addr ctx fnAfterResolveList with_next]. rewrite Hl. reflexivity.
Qed.

Lemma provider_unbound_witness :
  let h := Scenario.scoping_heap in
  let this := persistent_Context Scenario.child1 in
  tryProvider (run 0) 0 this "Missing" "" h = (Ret None, with_next S h)
  /\ exists m, provider (run 0) 0 this "Missing" "" h
               = (Exc (UnableToResolveException m), with_next S h).
Proof.
  intros h this.
  destruct (provider_unbound (run 0) 0 this "Missing" "" h) as (Hp & _ & Ht).
  - intros a Hin. apply elem_of_cons in Hin as [->|Hin];
      [|apply list_elem_of_singleton in Hin as ->]; reflexivity.
  - split; [apply Ht; reflexivity|exact Hp].
Defined.

(** ** The heap while client code runs *)

Lemma nearest_binding_evolves h h' sl iface name :
  evolves h h' -> nearest_binding h' sl iface name = nearest_binding h sl iface name.
Proof.
  intros Hev. induction sl as [a c|a c parent IH]; simpl; unfold binding_at;
    rewrite (evolves_typed_locator_at _ _ _ _ Hev); [reflexivity|].
  rewrite IH. reflexivity.
Qed.

(** X17.  A singleton is one instance for every scope that inherits its
    binding: once a lookup through one locator has constructed it, a lookup
    of the pair through any locator whose closest binding of the pair is
    that binding, the parent's own or a sibling's, returns the same
    instance and constructs nothing. *)
Theorem singleton_shared_across_scopes fuel b bd f iface sl1 slc1 h o h1 :
  bindings h !! b = Some bd ->
  _fnGet bd = fn_singleton ->
  _fnCreate bd = Some f ->
  nearest_binding h sl1 iface (_name slc1) = Some b ->
  run fuel (f slc1) (with_created (fun l => l ++ [b]) h) = (Ret (Some o), h1) ->
  let h2 := store_singleton b (Some o) h1 in
  _resolve (run fuel) sl1 iface slc1 h = (Ret (Some o), h2)
  /\ forall exec' sl2 slc2,
      nearest_binding h sl2 iface (_name slc2) = Some b ->
      _resolve exec' sl2 iface slc2 h2 = (Ret (Some o), h2).
Proof.
  intros Hb Hg Hf Hn Hrun h2.
  assert (Hev1 : evolves h h1).
  { eapply evolves_trans; [apply (evolves_with_created b h)|].
    pose proof (preserves_run fuel (f slc1) (with_created (fun l => l ++ [b]) h)) as H.
    rewrite Hrun in H. exact H. }
  assert (Hev2 : evolves h h2) by (eapply evolves_store_singleton; eassumption).
  split.
  - eapply _resolve_nearest; [exact Hn|].
    rewrite (binding_get_singleton _ _ _ _ _ Hb Hg), bind_eq,
      (call_fnCreate_eq _ _ _ _ _ _ Hb Hf), Hrun. reflexivity.
  - intros exec' sl2 slc2 Hn2.
    destruct (ev_bindings _ _ Hev1 _ _ Hb) as (bd1 & Hb1 & _).
    eapply _resolve_nearest.
    + rewrite (nearest_binding_evolves _ _ _ _ _ Hev2). exact Hn2.
    + destruct bd1 as [i1 g1 c1 e1 s1].
      apply (binding_get_cached exec' b (mkBinding i1 fn_cached c1 e1 (Some o)));
        [|reflexivity].
      unfold h2, store_singleton. simpl. rewrite lookup_alter_eq, Hb1. reflexivity.
Qed.

Lemma singleton_shared_across_scopes_witness :
  let h := with_next S Scenario.shared_singleton_heap in
  let asking sl := mkContext 7 (sl_context sl) (Some (persistent_Context sl)) sl "ITest" "" in
  let r1 := _resolve (run 1) Scenario.child1 "ITest" (asking Scenario.child1) h in
  fst r1 = Ret (Some 8)
  /\ _resolve (run 0) Scenario.child2 "ITest" (asking Scenario.child2) (snd r1)
     = (Ret (Some 8), snd r1).
Proof.
  intros h asking r1.
  destruct (singleton_shared_across_scopes 1 2 Scenario.singleton_binding
              Scenario.singleton_fnCreate "ITest" Scenario.child1 (asking Scenario.child1)
              h 8
              (snd (run 1 (Scenario.singleton_fnCreate (asking Scenario.child1))
                      (with_created (fun l => l ++ [2]) h))))
    as [H1 H2]; try reflexivity.
  subst r1. rewrite H1. split; [reflexivity|].
  apply (H2 (run 0) Scenario.child2 (asking Scenario.child2)). reflexivity.
Defined.

(** X18.  Resolution never edits a registry.  Whatever client code the
    engine runs (constructors, factories and callbacks calling [resolve],
    [tryResolve], [canResolve], [resolveAll], providers, [afterResolve] and
    [setConcreteType]), every pair is bound afterwards to the binding it was
    bound to before, every eager queue is as it was, and a binding object
    changes in one way only: a singleton that was constructed now returns
    its cached instance. *)
Theorem resolution_keeps_registry fuel p h :
  let h' := snd (run fuel p h) in
  locators h' = locators h
  /\ (forall a iface name, binding_at h' a iface name = binding_at h a iface name)
  /\ (forall sl, eager_of h' sl = eager_of h sl)
  /\ (forall b bd,
         bindings h !! b = Some bd ->
         exists bd',
           bindings h' !! b = Some bd'
           /\ _fnCreate bd' = _fnCreate bd
           /\ (bd' = bd \/ (_fnGet bd = fn_singleton /\ _fnGet bd' = fn_cached)))
  /\ created h `prefix_of` created h'.
Proof.
  intros h'. pose proof (preserves_run fuel p h) as Hev. fold h' in Hev.
  split; [apply (ev_locators _ _ Hev)|]. split; [|split; [|split]].
  - intros a iface name. unfold binding_at.
    rewrite (evolves_typed_locator_at _ _ _ _ Hev). reflexivity.
  - intros sl. unfold eager_of. rewrite (ev_locators _ _ Hev). reflexivity.
  - intros b bd Hb. destruct (ev_bindings _ _ Hev _ _ Hb) as (bd' & Hb' & _ & Hc & _ & Hg).
    exists bd'. auto.
  - apply (ev_created _ _ Hev).
Qed.

(** ** Callbacks and eager bindings *)

(** X19.  [afterResolve(fn)] stores the callback on the root of the
    context it is called on, never on that context itself when it is not
    the root, and at the end of the list: two registrations through two
    contexts of one chain leave the list of their root with the two
    callbacks last, in the order of the calls, and the list of every other
    root as it was.  The list object is allocated by the first
    registration only. *)
Theorem afterResolve_push_fifo c1 c2 fn1 fn2 h :
  _root c1 = _root c2 ->
  let r := (afterResolve_push c1 fn1;; afterResolve_push c2 fn2) h in
  fst r = Ret tt
  /\ match fnAfterResolveList h !! _root c1 with
     | Some (l, fns) =>
         fnAfterResolveList (snd r) !! _root c1 = Some (l, fns ++ [fn1; fn2])
         /\ next (snd r) = next h
     | None =>
         fnAfterResolveList (snd r) !! _root c1 = Some (next h, [fn1; fn2])
         /\ next (snd r) = S (next h)
     end
  /\ (forall a, a <> _root c1 ->
                fnAfterResolveList (snd r) !! a = fnAfterResolveList h !! a).
Proof.
  intros Hroot r. subst r. unfold afterResolve_push. rewrite <- Hroot. msimpl.
  destruct (fnAfterResolveList h !! _root c1) as [[l fns]|] eqn:E; msimpl;
    cbn [fnAfterResolveList with_fnAfterResolveList with_next];
    rewrite lookup_insert_eq; msimpl; cbn [fst snd fnAfterResolveList with_fnAfterResolveList
                                             with_next next].
  - split; [reflexivity|]. split.
    + rewrite lookup_insert_eq, <- app_assoc. auto.
    + intros a Ha. rewrite !lookup_insert_ne by congruence. reflexivity.
  - split; [reflexivity|]. split.
    + rewrite lookup_insert_eq. auto.
    + intros a Ha. rewrite !lookup_insert_ne by congruence. reflexivity.
Qed.

Lemma afterResolve_push_fifo_witness :
  let h := Scenario.constructing_a_heap in
  let fn1 := fun c : Context => SetConcreteType c "first" (Return None) in
  let fn2 := fun c : Context => SetConcreteType c "second" (Return None) in
  let r := (afterResolve_push Scenario.constructing_a fn1;;
            afterResolve_push (persistent_Context Scenario.root) fn2) h in
  fnAfterResolveList (snd r) !! 1 = Some (next h, [fn1; fn2])
  /\ fnAfterResolveList (snd r) !! 5 = None.
Proof.
  intros h fn1 fn2 r.
  destruct (afterResolve_push_fifo Scenario.constructing_a
              (persistent_Context Scenario.root) fn1 fn2 h eq_refl) as (_ & Hl & Hother).
  split.
  - exact (proj1 Hl).
  - exact (Hother 5 ltac:(discriminate)).
Defined.

Lemma preserves_eagerBind exec b slc :
  (forall p, preserves (exec p)) -> preserves (eagerBind exec b slc).
Proof.
  intros Hexec. unfold eagerBind. apply preserves_bind; [apply preserves_gets|intros [bd|]];
    [|apply preserves_stop].
  apply preserves_bind; [apply preserves_new_Context|intros ctx].
  apply preserves_bind; [apply preserves_binding_get, Hexec|intros v]. apply preserves_ret.
Qed.

(** X20.  [getContext] clears the eager queue only after every eager
    binding has been constructed: when a construction throws, [getContext]
    throws with it and the queue is left whole, the bindings constructed
    before the failure included, so the next [getContext] goes through all
    of them again. *)
Theorem getContext_failure_keeps_queue fuel sl h e h' :
  getContext (run fuel) sl h = (Exc e, h') ->
  eager_of h' sl = eager_of h sl
  /\ eager_of h sl <> []
  /\ created h `prefix_of` created h'.
Proof.
  rewrite getContext_eq.
  destruct (eager_of h sl) as [|b q] eqn:Hq; [discriminate|].
  rewrite bind_eq.
  pose proof (preserves_mapM
                (fun eagerBinding => eagerBind (run fuel) eagerBinding (persistent_Context sl))
                (b :: q)
                (fun b0 => preserves_eagerBind (run fuel) b0 _ (preserves_run fuel)) h) as Hev.
  destruct (mapM _ (b :: q) h) as [[vs|e0|r] h1]; try discriminate.
  intros [= <- <-]. simpl in Hev.
  split; [|split; [discriminate|apply (ev_created _ _ Hev)]].
  unfold eager_of in *. rewrite (ev_locators _ _ Hev). exact Hq.
Qed.

Lemma getContext_failure_keeps_queue_witness :
  let h := Scenario.eager_failing_heap in
  let r := getContext (run 1) Scenario.root h in
  fst r = Exc (client_exception "constructor failed")
  /\ eager_of (snd r) Scenario.root = eager_of h Scenario.root
  /\ eager_of h Scenario.root = [2].
Proof.
  intros h r.
  destruct (getContext_failure_keeps_queue 1 Scenario.root h
              (client_exception "constructor failed") (snd r)) as (Hq & _).
  - vm_compute. reflexivity.
  - split; [vm_compute; reflexivity|]. split; [exact Hq|vm_compute; reflexivity].
Defined.

(** A [get] that returns leaves a singleton binding cached. *)
Lemma binding_get_leaves_cached exec b slc h v h' bd :
  (forall p, preserves (exec p)) ->
  bindings h !! b = Some bd ->
  _fnGet bd = fn_singleton \/ _fnGet bd = fn_cached ->
  binding_get exec b slc h = (Ret v, h') ->
  exists bd', bindings h' !! b = Some bd' /\ _fnGet bd' = fn_cached.
Proof.
  intros Hexec Hb Hg. unfold binding_get. msimpl. rewrite Hb.
  destruct Hg as [Hg|Hg]; rewrite Hg.
  - msimpl. pose proof (preserves_call_fnCreate exec Hexec b slc h) as Hev.
    destruct (call_fnCreate exec b slc h) as [[w|e|r] h1]; try discriminate.
    msimpl. intros [= <- <-]. simpl in Hev.
    destruct (ev_bindings _ _ Hev _ _ Hb) as (bd1 & Hb1 & _).
    unfold store_singleton. simpl. rewrite lookup_alter_eq, Hb1. simpl. eauto.
  - msimpl. intros [= <- <-]. eauto.
Qed.

Lemma eagerBind_leaves_cached exec b slc h h' bd :
  (forall p, preserves (exec p)) ->
  bindings h !! b = Some bd ->
  _fnGet bd = fn_singleton \/ _fnGet bd = fn_cached ->
  eagerBind exec b slc h = (Ret tt, h') ->
  exists bd', bindings h' !! b = Some bd' /\ _fnGet bd' = fn_cached.
Proof.
  intros Hexec Hb Hg. unfold eagerBind, new_Context. msimpl. rewrite Hb. msimpl.
  destruct (binding_get exec b _ (with_next S h)) as [[v|e|r] h1] eqn:E; try discriminate.
  msimpl. intros [= <-].
  eapply binding_get_leaves_cached; [exact Hexec| |exact Hg|exact E]. exact Hb.
Qed.

Lemma evolves_singleton_or_cached h h' b bd :
  evolves h h' -> bindings h !! b = Some bd ->
  _fnGet bd = fn_singleton \/ _fnGet bd = fn_cached ->
  exists bd', bindings h' !! b = Some bd'
              /\ (_fnGet bd' = fn_singleton \/ _fnGet bd' = fn_cached).
Proof.
  intros Hev Hb Hg. destruct (ev_bindings _ _ Hev _ _ Hb) as (bd' & Hb' & _ & _ & _ & Hle).
  exists bd'. split; [exact Hb'|]. destruct Hle as [->|[_ Hc]]; [exact Hg|right; exact Hc].
Qed.

Lemma mapM_eagerBind_caches exec slc q h vs h' :
  (forall p, preserves (exec p)) ->
  mapM (fun b => eagerBind exec b slc) q h = (Ret vs, h') ->
  forall b bd,
    b ∈ q -> bindings h !! b = Some bd ->
    _fnGet bd = fn_singleton \/ _fnGet bd = fn_cached ->
    exists bd', bindings h' !! b = Some bd' /\ _fnGet bd' = fn_cached.
Proof.
  intros Hexec. revert h vs h'. induction q as [|b0 q IH]; intros h vs h' Hm b bd Hin Hb Hg.
  - inversion Hin.
  - revert Hm. cbn [mapM]. msimpl.
    pose proof (preserves_eagerBind exec b0 slc Hexec h) as Hev0.
    destruct (eagerBind exec b0 slc h) as [[[]|e|r] h1] eqn:E0; try discriminate. msimpl.
    pose proof (preserves_mapM (fun b => eagerBind exec b slc) q
                  (fun b1 => preserves_eagerBind exec b1 slc Hexec) h1) as Hev1.
    destruct (mapM _ q h1) as [[vs1|e|r] h2] eqn:E1; try discriminate. msimpl.
    intros [= <- <-]. simpl in Hev0, Hev1.
    apply elem_of_cons in Hin as [->|Hin].
    + destruct (eagerBind_leaves_cached _ _ _ _ _ _ Hexec Hb Hg E0) as (bd1 & Hb1 & Hc1).
      exists bd1. split; [|exact Hc1]. eapply evolves_cached; eassumption.
    + destruct (evolves_singleton_or_cached _ _ _ _ Hev0 Hb Hg) as (bd1 & Hb1 & Hg1).
      eapply IH; eassumption.
Qed.

(** X21.  When [getContext] returns, every singleton that was in the
    eager queue of the locator has been constructed: its binding is at the
    inner lambda and every later [get] returns the cached instance without
    running client code, whatever the length of the queue and whichever
    bindings the constructors resolved on the way. *)
Theorem getContext_constructs_eager_singletons fuel sl h c h' :
  getContext (run fuel) sl h = (Ret c, h') ->
  forall b bd,
    b ∈ eager_of h sl ->
    bindings h !! b = Some bd ->
    _fnGet bd = fn_singleton ->
    exists bd',
      bindings h' !! b = Some bd'
      /\ _fnGet bd' = fn_cached
      /\ forall exec slc, binding_get exec b slc h' = (Ret (_singleton bd'), h').
Proof.
  intros Hget b bd Hin Hb Hg.
  assert (Hc : exists bd', bindings h' !! b = Some bd' /\ _fnGet bd' = fn_cached).
  { revert Hget. rewrite getContext_eq.
    destruct (eager_of h sl) as [|b0 q] eqn:Hq; [inversion Hin|].
    rewrite bind_eq.
    destruct (mapM _ (b0 :: q) h) as [[vs|e|r] h1] eqn:E; try discriminate.
    msimpl. intros [= _ <-].
    destruct (mapM_eagerBind_caches _ _ _ _ _ _ (preserves_run fuel) E b bd Hin Hb
                (or_introl Hg)) as (bd' & Hb' & Hc').
    exists bd'. split; [exact Hb'|exact Hc']. }
  destruct Hc as (bd' & Hb' & Hc'). exists bd'. split; [exact Hb'|]. split; [exact Hc'|].
  intros exec slc. apply binding_get_cached; assumption.
Qed.

Lemma getContext_constructs_eager_singletons_witness :
  let h := Scenario.eager_heap in
  let h' := snd (getContext (run 1) Scenario.root h) in
  exists bd',
    bindings h' !! 2 = Some bd'
    /\ _fnGet bd' = fn_cached
    /\ forall exec slc, binding_get exec 2 slc h' = (Ret (_singleton bd'), h').
Proof.
  intros h h'.
  apply (getContext_constructs_eager_singletons 1 Scenario.root h
           (persistent_Context Scenario.root) h' ltac:(vm_compute; reflexivity) 2
           (mkBinding "TestEager" fn_singleton
              (Some (fun slc =>
                       SetConcreteType slc "TestEager"
                         (pbind (Scenario.no_dependency slc)
                            (fun _ => New (fun o => Return (Some o))))))
              0 None)).
  - vm_compute. apply list_elem_of_here.
  - reflexivity.
  - reflexivity.
Defined.

(** ** Concrete types are written once *)

Lemma types_kept_refl h : types_kept h h.
Proof. intros a t H. exact H. Qed.

Lemma types_kept_trans h1 h2 h3 : types_kept h1 h2 -> types_kept h2 h3 -> types_kept h1 h3.
Proof. intros H12 H23 a t H. apply H23, H12, H. Qed.

Lemma keeps_types_ret {A} (a : A) : keeps_types (mret a).
Proof. intros h. apply types_kept_refl. Qed.

Lemma keeps_types_throw {A} e : keeps_types (throw (A:=A) e).
Proof. intros h. apply types_kept_refl. Qed.

Lemma keeps_types_stop {A} r : keeps_types (stop (A:=A) r).
Proof. intros h. apply types_kept_refl. Qed.

Lemma keeps_types_gets {A} (f : heap -> A) : keeps_types (gets f).
Proof. intros h. apply types_kept_refl. Qed.

Lemma keeps_types_bind {A B} (m : M A) (f : A -> M B) :
  keeps_types m -> (forall a, keeps_types (f a)) -> keeps_types (m ≫= f).
Proof.
  intros Hm Hf h. rewrite bind_eq. specialize (Hm h).
  destruct (m h) as [[a|e|r] h1]; simpl in *; try exact Hm.
  eapply types_kept_trans; [exact Hm|apply Hf].
Qed.

Lemma keeps_types_modify (f : heap -> heap) :
  (forall h, concreteType (f h) = concreteType h) -> keeps_types (modify f).
Proof. intros Hf h a t. simpl. rewrite Hf. trivial. Qed.

Lemma keeps_types_mapM {A B} (f : A -> M B) l :
  (forall a, keeps_types (f a)) -> keeps_types (mapM f l).
Proof.
  intros Hf. induction l as [|a l IH]; simpl.
  - apply keeps_types_ret.
  - apply keeps_types_bind; [apply Hf|intros b].
    apply keeps_types_bind; [apply IH|intros bs]. apply keeps_types_ret.
Qed.

Lemma keeps_types_alloc : keeps_types alloc.
Proof. intros h a t H. exact H. Qed.

Lemma keeps_types_setConcreteType c t : keeps_types (setConcreteType c t).
Proof.
  intros h. unfold setConcreteType. msimpl.
  destruct (concreteType h !! ctx_addr c) as [t0|] eqn:E; [apply types_kept_refl|].
  intros a t1 Ha. simpl. destruct (decide (a = ctx_addr c)) as [->|Hne];
    [congruence|]. rewrite lookup_insert_ne by congruence. exact Ha.
Qed.

Lemma keeps_types_afterResolve_push c fn : keeps_types (afterResolve_push c fn).
Proof.
  unfold afterResolve_push. apply keeps_types_bind; [apply keeps_types_gets|].
  intros [[l fns]|].
  - apply keeps_types_modify. reflexivity.
  - apply keeps_types_bind; [apply keeps_types_alloc|intros l].
    apply keeps_types_modify. reflexivity.
Qed.

Lemma keeps_types_new_Context parent t n : keeps_types (new_Context parent t n).
Proof.
  unfold new_Context. apply keeps_types_bind; [apply keeps_types_alloc|intros a].
  apply keeps_types_ret.
Qed.

Lemma keeps_types_new_root_Context sl t n : keeps_types (new_root_Context sl t n).
Proof.
  unfold new_root_Context. apply keeps_types_bind; [apply keeps_types_alloc|intros a].
  apply keeps_types_ret.
Qed.

Lemma keeps_types_checkRecursiveResolve ctx this :
  keeps_types (checkRecursiveResolve ctx this).
Proof.
  intros h. destruct (recursive_request_dec ctx this) as [Hc|Hc].
  - rewrite (checkRecursiveResolve_raises _ _ _ Hc). apply types_kept_refl.
  - rewrite (checkRecursiveResolve_passes _ _ _ Hc). apply types_kept_refl.
Qed.

Lemma keeps_types_unable_to_resolve {A} slc : keeps_types (unable_to_resolve (A:=A) slc).
Proof. intros h. apply types_kept_refl. Qed.

Section EngineKeepsTypes.
Variable exec : Prog -> M sptr.
Variable rounds : nat.
Hypothesis exec_keeps_types : forall p, keeps_types (exec p).

Local Ltac step_bind := apply keeps_types_bind; [|intros ?x].

Lemma keeps_types_call_fnCreate b slc : keeps_types (call_fnCreate exec b slc).
Proof.
  unfold call_fnCreate. step_bind; [apply keeps_types_gets|].
  destruct (_ ≫= _fnCreate) as [f|]; [|apply keeps_types_throw].
  step_bind; [|apply exec_keeps_types].
  apply keeps_types_modify. reflexivity.
Qed.

Lemma keeps_types_binding_get b slc : keeps_types (binding_get exec b slc).
Proof.
  unfold binding_get. step_bind; [apply keeps_types_gets|].
  destruct x as [bd|]; [|apply keeps_types_stop].
  destruct (_fnGet bd).
  - apply keeps_types_throw.
  - apply keeps_types_call_fnCreate.
  - apply keeps_types_ret.
  - step_bind; [apply keeps_types_call_fnCreate|].
    step_bind; [apply keeps_types_modify; reflexivity|apply keeps_types_ret].
  - apply keeps_types_ret.
Qed.

Lemma keeps_types_typed_tryResolve nsl name slc :
  keeps_types (typed_tryResolve exec nsl name slc).
Proof.
  unfold typed_tryResolve. destruct (smap.find name nsl);
    [apply keeps_types_binding_get|apply keeps_types_ret].
Qed.

Lemma keeps_types__resolve sl iface slc : keeps_types (_resolve exec sl iface slc).
Proof.
  induction sl as [a c|a c p IH]; simpl.
  - step_bind; [apply keeps_types_gets|].
    destruct x as [nsl|]; [|apply keeps_types_unable_to_resolve].
    step_bind; [apply keeps_types_typed_tryResolve|].
    destruct x; [apply keeps_types_ret|apply keeps_types_unable_to_resolve].
  - step_bind; [apply keeps_types_gets|].
    destruct x as [nsl|]; [|apply IH].
    step_bind; [apply keeps_types_typed_tryResolve|].
    destruct x; [apply keeps_types_ret|apply IH].
Qed.

Lemma keeps_types__tryResolve sl iface slc : keeps_types (_tryResolve exec sl iface slc).
Proof.
  induction sl as [a c|a c p IH]; simpl.
  - step_bind; [apply keeps_types_gets|].
    destruct x as [nsl|]; [|apply keeps_types_ret].
    step_bind; [apply keeps_types_typed_tryResolve|].
    destruct x; apply keeps_types_ret.
  - step_bind; [apply keeps_types_gets|].
    destruct x as [nsl|]; [|apply IH].
    step_bind; [apply keeps_types_typed_tryResolve|].
    destruct x; [apply keeps_types_ret|apply IH].
Qed.

Lemma keeps_types__canResolve sl iface slc : keeps_types (_canResolve sl iface slc).
Proof.
  induction sl as [a c|a c p IH]; simpl.
  - step_bind; [apply keeps_types_gets|]. destruct x; apply keeps_types_ret.
  - step_bind; [apply keeps_types_gets|]. destruct x; [apply keeps_types_ret|apply IH].
Qed.

Lemma keeps_types__visitAll {A} sl iface (fnVisit : addr -> M A) :
  (forall b, keeps_types (fnVisit b)) -> keeps_types (_visitAll sl iface fnVisit).
Proof.
  intros Hf. induction sl as [a c|a c p IH]; simpl.
  - step_bind; [apply keeps_types_gets|].
    step_bind; [|apply keeps_types_ret].
    destruct x; [apply keeps_types_mapM, Hf|apply keeps_types_ret].
  - step_bind; [apply keeps_types_gets|].
    step_bind; [destruct x; [apply keeps_types_mapM, Hf|apply keeps_types_ret]|].
    step_bind; [apply IH|apply keeps_types_ret].
Qed.

Lemma keeps_types_afterResolve_loop n this l i :
  keeps_types (afterResolve_loop exec n this l i).
Proof.
  revert i. induction n as [|n IH]; intros i; simpl.
  - step_bind; [apply keeps_types_gets|].
    destruct x as [[l' fns]|]; [|apply keeps_types_stop].
    destruct (bool_decide (l' = l)); [|apply keeps_types_stop].
    destruct (fns !! i); [apply keeps_types_stop|apply keeps_types_ret].
  - step_bind; [apply keeps_types_gets|].
    destruct x as [[l' fns]|]; [|apply keeps_types_stop].
    destruct (bool_decide (l' = l)); [|apply keeps_types_stop].
    destruct (fns !! i); [|apply keeps_types_ret].
    step_bind; [apply keeps_types_new_root_Context|].
    step_bind; [apply exec_keeps_types|apply IH].
Qed.

Lemma keeps_types_afterResolve this : keeps_types (afterResolve exec rounds this).
Proof.
  unfold afterResolve. destruct (bool_decide _); [|apply keeps_types_ret].
  step_bind; [apply keeps_types_gets|].
  destruct x as [[l fns]|]; [|apply keeps_types_ret].
  step_bind; [apply keeps_types_afterResolve_loop|].
  apply keeps_types_modify. reflexivity.
Qed.

Lemma keeps_types_resolve this iface named :
  keeps_types (resolve exec rounds this iface named).
Proof.
  unfold resolve. step_bind; [apply keeps_types_new_Context|].
  step_bind; [apply keeps_types_checkRecursiveResolve|].
  step_bind; [apply keeps_types__resolve|].
  step_bind; [apply keeps_types_afterResolve|apply keeps_types_ret].
Qed.

Lemma keeps_types_tryResolve this iface named :
  keeps_types (tryResolve exec rounds this iface named).
Proof.
  unfold tryResolve. step_bind; [apply keeps_types_new_Context|].
  step_bind; [apply keeps_types_checkRecursiveResolve|].
  step_bind; [apply keeps_types__tryResolve|].
  step_bind; [apply keeps_types_afterResolve|apply keeps_types_ret].
Qed.

Lemma keeps_types_canResolve this iface named :
  keeps_types (canResolve this iface named).
Proof.
  unfold canResolve. step_bind; [apply keeps_types_new_Context|].
  apply keeps_types__canResolve.
Qed.

Lemma keeps_types_resolveAll_visit this iface b :
  keeps_types (resolveAll_visit exec this iface b).
Proof.
  unfold resolveAll_visit. step_bind; [apply keeps_types_new_Context|].
  step_bind; [apply keeps_types_checkRecursiveResolve|apply keeps_types_binding_get].
Qed.

Lemma keeps_types_resolveAll this iface : keeps_types (resolveAll exec rounds this iface).
Proof.
  unfold resolveAll.
  step_bind; [apply keeps_types__visitAll, keeps_types_resolveAll_visit|].
  step_bind; [apply keeps_types_afterResolve|apply keeps_types_ret].
Qed.

Lemma keeps_types_provider this iface name :
  keeps_types (provider exec rounds this iface name).
Proof.
  unfold provider. step_bind; [apply keeps_types_new_root_Context|].
  step_bind; [apply keeps_types__resolve|].
  step_bind; [apply keeps_types_afterResolve|apply keeps_types_ret].
Qed.

Lemma keeps_types_tryProvider this iface name :
  keeps_types (tryProvider exec rounds this iface name).
Proof.
  unfold tryProvider. step_bind; [apply keeps_types_new_root_Context|].
  step_bind; [apply keeps_types__tryResolve|].
  step_bind; [apply keeps_types_afterResolve|apply keeps_types_ret].
Qed.

Lemma keeps_types_interp p : keeps_types (interp exec rounds p).
Proof.
  induction p as [v|e|k IH|c i n k IH|c i n k IH|c i n k IH|c i k IH
                 |c fn IHfn k IH|c t k IH|c i n k IH|c i n k IH]; simpl.
  - apply keeps_types_ret.
  - apply keeps_types_throw.
  - step_bind; [apply keeps_types_alloc|apply IH].
  - step_bind; [apply keeps_types_resolve|apply IH].
  - step_bind; [apply keeps_types_tryResolve|apply IH].
  - step_bind; [apply keeps_types_canResolve|apply IH].
  - step_bind; [apply keeps_types_resolveAll|apply IH].
  - step_bind; [apply keeps_types_afterResolve_push|apply IH].
  - step_bind; [apply keeps_types_setConcreteType|apply IH].
  - step_bind; [apply keeps_types_provider|apply IH].
  - step_bind; [apply keeps_types_tryProvider|apply IH].
Qed.

Lemma keeps_types_eagerBind b slc : keeps_types (eagerBind exec b slc).
Proof.
  unfold eagerBind. step_bind; [apply keeps_types_gets|].
  destruct x as [bd|]; [|apply keeps_types_stop].
  step_bind; [apply keeps_types_new_Context|].
  step_bind; [apply keeps_types_binding_get|apply keeps_types_ret].
Qed.

Lemma keeps_types_getContext sl : keeps_types (getContext exec sl).
Proof.
  unfold getContext. step_bind; [apply keeps_types_gets|].
  step_bind; [|apply keeps_types_ret].
  destruct x as [|b q]; [apply keeps_types_ret|].
  step_bind; [apply keeps_types_mapM; intros b0; apply keeps_types_eagerBind|].
  apply keeps_types_modify. reflexivity.
Qed.
End EngineKeepsTypes.

Lemma keeps_types_run fuel p : keeps_types (run fuel p).
Proof.
  revert p. induction fuel as [|fuel IH]; intros p; simpl.
  - apply keeps_types_stop.
  - apply keeps_types_interp, IH.
Qed.

(** X22.  The concrete type of a context is written once.
    [setConcreteType] on a context that has none records the type; on a
    context that has one it raises [BindingIssueException] and changes
    nothing, and from then on no client code the engine runs and no
    [getContext] changes or removes the recorded type. *)
Theorem concrete_type_written_once c t h :
  (concreteType h !! ctx_addr c = None ->
   fst (setConcreteType c t h) = Ret tt
   /\ concreteType (snd (setConcreteType c t h)) !! ctx_addr c = Some t)
  /\ (forall t0,
         concreteType h !! ctx_addr c = Some t0 ->
         setConcreteType c t h
         = (Exc (BindingIssueException "Concrete type on Context already set"), h)
         /\ (forall fuel p, concreteType (snd (run fuel p h)) !! ctx_addr c = Some t0)
         /\ (forall fuel sl,
                concreteType (snd (getContext (run fuel) sl h)) !! ctx_addr c = Some t0)).
Proof.
  split.
  - intros Hn. unfold setConcreteType. msimpl. rewrite Hn. msimpl. simpl.
    split; [reflexivity|apply lookup_insert_eq].
  - intros t0 Ht. split; [|split].
    + unfold setConcreteType. msimpl. rewrite Ht. reflexivity.
    + intros fuel p. apply (keeps_types_run fuel p h), Ht.
    + intros fuel sl.
      apply (keeps_types_getContext (run fuel) (keeps_types_run fuel) sl h), Ht.
Qed.

Lemma concrete_type_written_once_witness :
  let c := Scenario.constructing_b in
  let h0 := Scenario.constructing_a_heap in
  let h1 := with_next S (snd (setConcreteType c "TestB" h0)) in
  concreteType (snd (setConcreteType c "TestB" h0)) !! 5 = Some "TestB"
  /\ setConcreteType c "Other" h1
     = (Exc (BindingIssueException "Concrete type on Context already set"), h1)
  /\ concreteType (snd (run 1 (Scenario.transient_fnCreate Scenario.constructing_b') h1)) !! 5
     = Some "TestB".
Proof.
  intros c h0 h1. split; [|split].
  - apply (proj1 (concrete_type_written_once c "TestB" h0)). reflexivity.
  - apply (proj1 (proj2 (concrete_type_written_once c "Other" h1) "TestB" eq_refl)).
  - apply (proj1 (proj2 (proj2 (concrete_type_written_once c "Other" h1) "TestB" eq_refl))).
Defined.

(** ** Resolve paths *)

Lemma string_app_assoc (a b c : string) : (a +:+ b) +:+ c = a +:+ b +:+ c.
Proof.
  induction a as [|x a IH]; [reflexivity|].
  change (String x ((a +:+ b) +:+ c) = String x (a +:+ b +:+ c)). f_equal. exact IH.
Qed.

Lemma string_app_empty_r (a : string) : a +:+ "" = a.
Proof.
  induction a as [|x a IH]; [reflexivity|].
  change (String x (a +:+ "") = String x a). f_equal. exact IH.
Qed.

Lemma concat_snoc sep l x :
  l <> [] -> String.concat sep (l ++ [x]) = String.concat sep l +:+ sep +:+ x.
Proof.
  induction l as [|y l IH]; [contradiction|]. intros _.
  destruct l as [|z l].
  - reflexivity.
  - change (String.concat sep ((y :: z :: l) ++ [x]))
      with (y +:+ sep +:+ String.concat sep ((z :: l) ++ [x])).
    rewrite IH by discriminate.
    change (String.concat sep (y :: z :: l)) with (y +:+ sep +:+ String.concat sep (z :: l)).
    rewrite !string_app_assoc. reflexivity.
Qed.

Lemma getResolvePath_eq h c :
  getResolvePath h c =
    match _parent c with
    | Some p =>
        match _parent p with
        | Some _ => getResolvePath h p +:+ " -> " +:+ render h c
        | None => render h c
        end
    | None => render h c
    end.
Proof.
  unfold render.
  destruct c as [a r [p|] sl t n]; cbn [getResolvePath _parent ctx_addr _name].
  - destruct (_parent p); destruct (concreteType h !! a);
      rewrite ?string_app_assoc, ?string_app_empty_r; reflexivity.
  - destruct (concreteType h !! a); rewrite ?string_app_assoc, ?string_app_empty_r;
      reflexivity.
Qed.

Lemma ctx_chain_eq c :
  ctx_chain c = c :: match _parent c with Some p => ctx_chain p | None => [] end.
Proof. destruct c as [a r [p|] sl t n]; reflexivity. Qed.

(** X23.  [getResolvePath] lists the requests of the chain from the
    outermost to the context itself, each with its concrete type once that
    is set, joined by an arrow; the context itself is always the last
    frame.  The outermost context of the chain is left out whenever the
    context has a parent: for a lookup that started at the context of a
    locator that is the placeholder, for a lookup made inside a provider
    call it is the request the provider was called for. *)
Theorem getResolvePath_frames h c :
  getResolvePath h c = String.concat " -> " (map (render h) (path_frames c))
  /\ (forall p, _parent c = Some p -> _parent p = None -> getResolvePath h c = render h c)
  /\ last (path_frames c) = Some c.
Proof.
  assert (Hpath : getResolvePath h c = String.concat " -> " (map (render h) (path_frames c))
                  /\ last (path_frames c) = Some c).
  { induction c as [a r sl t n|a r p sl t n IH] using Context_chain_ind.
    - split; [rewrite getResolvePath_eq|]; reflexivity.
    - rewrite getResolvePath_eq. cbn [_parent]. unfold path_frames in *.
      rewrite (ctx_chain_eq (mkContext a r (Some p) sl t n)). cbn [_parent].
      rewrite (ctx_chain_eq p) in *.
      destruct (_parent p) as [pp|] eqn:Epp.
      + destruct IH as [-> IHlast].
        rewrite (ctx_chain_eq pp) in *.
        set (tl := match _parent pp with Some q => ctx_chain q | None => [] end) in *.
        change (removelast (mkContext a r (Some p) sl t n :: p :: pp :: tl))
          with (mkContext a r (Some p) sl t n :: removelast (p :: pp :: tl)).
        cbn [rev]. rewrite map_app. cbn [map]. split.
        * rewrite concat_snoc; [reflexivity|].
          intros Hnil. apply (f_equal (@length _)) in Hnil.
          rewrite length_map, length_rev in Hnil.
          change (removelast (p :: pp :: tl)) with (p :: removelast (pp :: tl)) in Hnil.
          discriminate Hnil.
        * apply last_snoc.
      + split; reflexivity. }
  destruct Hpath as [Hp Hl]. split; [exact Hp|]. split; [|exact Hl].
  intros p Hc Hp0. rewrite getResolvePath_eq, Hc, Hp0. reflexivity.
Qed.

Lemma getResolvePath_frames_witness :
  let h := with_concreteType <[5 := "TestA"]> Scenario.constructing_a_heap in
  let inner := mkContext 7 1 (Some Scenario.constructing_a) Scenario.root "ITest" "b" in
  let from_provider := mkContext 6 6 None Scenario.root "ITest" "a" in
  let inside := mkContext 7 6 (Some from_provider) Scenario.root "ITest" "b" in
  getResolvePath h inner = "resolve<ITest>(a).to<TestA> -> resolve<ITest>(b)"
  /\ getResolvePath h inside = "resolve<ITest>(b)".
Proof.
  intros h inner from_provider inside. split.
  - rewrite (proj1 (getResolvePath_frames h inner)). reflexivity.
  - apply (proj1 (proj2 (getResolvePath_frames h inside)) from_provider eq_refl eq_refl).
Defined.
